(** * Household task tracker: scheduling and completion-state engine

    A shallow embedding of the scheduling core of the application:
    - [src/utils/date.ts]        due-date calculator and status classifier,
    - [src/utils/taskHelpers.ts] enrichment, completion ledger, filters, sort,
    - [src/db/index.ts]          the task and completion-log object stores,
      and the store of meal overrides,
    - the lists and handlers of the task, reminders, history and meal-plan
      pages that are built from them.

    A JavaScript [Date] is its time value: a number of milliseconds since
    the epoch, an integer of [Z].  The calendar operations the code reaches
    through [date-fns] are the ones of the running platform, so they are
    modelled by the abstract operations of the ECMAScript specification
    (section "Date Objects"): [Day], [YearFromTime], [MonthFromTime],
    [DateFromTime], [MakeDay], [MakeDate], [LocalTime], [UTC].

    The host machine's time zone is a parameter [tz], the offset of local
    time from UTC in milliseconds.  It is constant over time in this model
    (a zone without daylight-saving transitions); Asia/Hong_Kong itself is
    such a zone, at +8 hours. *)

From Stdlib Require Import ZArith Lia Ascii.
From stdpp Require Import gmap strings list fin_maps pretty sorting.

Local Open Scope Z_scope.

(** ** ECMAScript time values *)

Module JSDate.

Definition msPerDay : Z := 86400000.
Definition msPerHour : Z := 3600000.
Definition msPerMinute : Z := 60000.
Definition msPerSecond : Z := 1000.

Definition Day (t : Z) : Z := t / msPerDay.
Definition TimeWithinDay (t : Z) : Z := t mod msPerDay.

Definition DaysInYear (y : Z) : Z :=
  if negb (y mod 4 =? 0) then 365
  else if negb (y mod 100 =? 0) then 366
  else if negb (y mod 400 =? 0) then 365
  else 366.

Definition DayFromYear (y : Z) : Z :=
  365 * (y - 1970) + (y - 1969) / 4 - (y - 1901) / 100 + (y - 1601) / 400.

(** [YearFromTime t] is, in the ECMAScript text, the largest year [y] with
    [TimeFromYear y <= t].  It is computed here from the mean length of a
    Gregorian year and corrected by at most one year; [YearFromDay_spec]
    below shows that the result is that largest year. *)
Definition YearFromDay (d : Z) : Z :=
  let y0 := 1970 + (400 * d) / 146097 in
  if d <? DayFromYear y0 then y0 - 1
  else if DayFromYear (y0 + 1) <=? d then y0 + 1
  else y0.

Definition YearFromTime (t : Z) : Z := YearFromDay (Day t).

Definition LeapOfYear (y : Z) : Z := if DaysInYear y =? 366 then 1 else 0.

Definition InLeapYear (t : Z) : Z := LeapOfYear (YearFromTime t).

Definition DayWithinYear (t : Z) : Z := Day t - DayFromYear (YearFromTime t).

(** Number of days of the year [y] that precede its month [m] (0 = January). *)
Definition monthStart (y m : Z) : Z :=
  let L := LeapOfYear y in
  if m =? 0 then 0
  else if m =? 1 then 31
  else if m =? 2 then 59 + L
  else if m =? 3 then 90 + L
  else if m =? 4 then 120 + L
  else if m =? 5 then 151 + L
  else if m =? 6 then 181 + L
  else if m =? 7 then 212 + L
  else if m =? 8 then 243 + L
  else if m =? 9 then 273 + L
  else if m =? 10 then 304 + L
  else 334 + L.

Definition MonthFromTime (t : Z) : Z :=
  let d := DayWithinYear t in
  let L := InLeapYear t in
  if d <? 31 then 0
  else if d <? 59 + L then 1
  else if d <? 90 + L then 2
  else if d <? 120 + L then 3
  else if d <? 151 + L then 4
  else if d <? 181 + L then 5
  else if d <? 212 + L then 6
  else if d <? 243 + L then 7
  else if d <? 273 + L then 8
  else if d <? 304 + L then 9
  else if d <? 334 + L then 10
  else 11.

Definition DateFromTime (t : Z) : Z :=
  DayWithinYear t - monthStart (YearFromTime t) (MonthFromTime t) + 1.

Definition HourFromTime (t : Z) : Z := (t / msPerHour) mod 24.
Definition MinFromTime (t : Z) : Z := (t / msPerMinute) mod 60.
Definition SecFromTime (t : Z) : Z := (t / msPerSecond) mod 60.
Definition msFromTime (t : Z) : Z := t mod msPerSecond.

Definition MakeTime (h m s ms : Z) : Z :=
  h * msPerHour + m * msPerMinute + s * msPerSecond + ms.

(** [MakeDay] accepts a month and a date outside their usual ranges: the
    month is carried into the year and the date counts on from the first of
    the month. *)
Definition MakeDay (year month date : Z) : Z :=
  let ym := year + month / 12 in
  let mn := month mod 12 in
  DayFromYear ym + monthStart ym mn + date - 1.

Definition MakeDate (day time : Z) : Z := day * msPerDay + time.

(** Number of days of the month [m] (0 = January) of the year [y]. *)
Definition daysInMonth (y m : Z) : Z :=
  if m =? 1 then 28 + LeapOfYear y
  else if (m =? 3) || (m =? 5) || (m =? 8) || (m =? 10) then 30
  else 31.

Section HostZone.

(** Offset of the host's local time from UTC, in milliseconds. *)
Variable tz : Z.

Definition LocalTime (t : Z) : Z := t + tz.
Definition UTC (t : Z) : Z := t - tz.

Definition getFullYear (t : Z) : Z := YearFromTime (LocalTime t).
Definition getMonth (t : Z) : Z := MonthFromTime (LocalTime t).
Definition getDate (t : Z) : Z := DateFromTime (LocalTime t).
Definition getHours (t : Z) : Z := HourFromTime (LocalTime t).
Definition getMinutes (t : Z) : Z := MinFromTime (LocalTime t).
Definition getSeconds (t : Z) : Z := SecFromTime (LocalTime t).
Definition getMilliseconds (t : Z) : Z := msFromTime (LocalTime t).

Definition setHours (t h m s ms : Z) : Z :=
  UTC (MakeDate (Day (LocalTime t)) (MakeTime h m s ms)).

Definition setDate (t dt : Z) : Z :=
  let lt := LocalTime t in
  UTC (MakeDate (MakeDay (YearFromTime lt) (MonthFromTime lt) dt)
                (TimeWithinDay lt)).

Definition setMonth (t month dt : Z) : Z :=
  let lt := LocalTime t in
  UTC (MakeDate (MakeDay (YearFromTime lt) month dt) (TimeWithinDay lt)).

Definition setFullYear (t year month dt : Z) : Z :=
  let lt := LocalTime t in
  UTC (MakeDate (MakeDay year month dt) (TimeWithinDay lt)).

End HostZone.

End JSDate.

(** ** The [date-fns] and [date-fns-tz] functions used by [date.ts] *)

Module DateFns.

Import JSDate.

Section HostZone.

Variable tz : Z.

(** [startOfDay]: [date.setHours(0, 0, 0, 0)]. *)
Definition startOfDay (d : Z) : Z := setHours tz d 0 0 0 0.

(** [addDays]: [date.setDate(date.getDate() + amount)], the date itself
    when the amount is zero. *)
Definition addDays (d amount : Z) : Z :=
  if amount =? 0 then d else setDate tz d (getDate tz d + amount).

(** [addMonths]: move to the last day of the desired month with
    [setMonth(month + amount + 1, 0)]; keep it when the original day of the
    month does not fit, otherwise set year, month and the original day. *)
Definition addMonths (d amount : Z) : Z :=
  if amount =? 0 then d
  else
    let dayOfMonth := getDate tz d in
    let endOfDesiredMonth := setMonth tz d (getMonth tz d + amount + 1) 0 in
    let daysInMonth := getDate tz endOfDesiredMonth in
    if daysInMonth <=? dayOfMonth then endOfDesiredMonth
    else setFullYear tz d (getFullYear tz endOfDesiredMonth)
                          (getMonth tz endOfDesiredMonth) dayOfMonth.

Definition isAfter (d dateToCompare : Z) : bool := dateToCompare <? d.

Definition isSameDay (a b : Z) : bool := startOfDay a =? startOfDay b.

(** [a || b] on numbers: [a] unless it is zero. *)
Definition orElse (a b : Z) : Z := if a =? 0 then b else a.

(** The constant [diff] of [compareLocalAsc]: the first difference of
    local fields that is not zero, from the year down to the millisecond. *)
Definition localDiff (a b : Z) : Z :=
  orElse (getFullYear tz a - getFullYear tz b)
 (orElse (getMonth tz a - getMonth tz b)
 (orElse (getDate tz a - getDate tz b)
 (orElse (getHours tz a - getHours tz b)
 (orElse (getMinutes tz a - getMinutes tz b)
 (orElse (getSeconds tz a - getSeconds tz b)
         (getMilliseconds tz a - getMilliseconds tz b)))))).

Definition compareLocalAsc (a b : Z) : Z :=
  let diff := localDiff a b in
  if diff <? 0 then -1 else if 0 <? diff then 1 else diff.

(** [getTimezoneOffsetInMilliseconds] is the difference between the time
    value and the local wall-clock reading taken as UTC. *)
Definition getTimezoneOffsetInMilliseconds (d : Z) : Z := d - LocalTime tz d.

(** The quotient is an integer for a zone of constant offset (see
    [differenceInCalendarDays_Day]), so [Math.round] leaves it unchanged. *)
Definition differenceInCalendarDays (later earlier : Z) : Z :=
  let l := startOfDay later in
  let e := startOfDay earlier in
  ((l - getTimezoneOffsetInMilliseconds l)
   - (e - getTimezoneOffsetInMilliseconds e)) / msPerDay.

Definition differenceInDays (later earlier : Z) : Z :=
  let sign := compareLocalAsc later earlier in
  let difference := Z.abs (differenceInCalendarDays later earlier) in
  let later' := setDate tz later (getDate tz later - sign * difference) in
  let isLastDayNotFull :=
    if compareLocalAsc later' earlier =? - sign then 1 else 0 in
  sign * (difference - isLastDayNotFull).

(** [toZonedTime date zone], for a zone [zoneOffset] milliseconds ahead of
    UTC: a date whose local fields read the wall clock of that zone. *)
Definition toZonedTime (date zoneOffset : Z) : Z :=
  let d := date + zoneOffset in
  let r := setFullYear tz 0 (YearFromTime d) (MonthFromTime d)
                            (DateFromTime d) in
  setHours tz r (HourFromTime d) (MinFromTime d) (SecFromTime d)
                (msFromTime d).

End HostZone.

End DateFns.

Import JSDate DateFns.

(** ** Data model ([src/types/index.ts]) *)

Inductive TaskFrequency : Type := weekly | monthly.

Inductive TaskPriority : Type := High | Medium | Low.

Inductive TaskStatus : Type := Overdue | DueToday | Upcoming | OK.

#[global] Instance TaskStatus_eq_dec : EqDecision TaskStatus.
Proof. solve_decision. Defined.

(** The interface declares [createdAt] mandatory, but records come back
    from the object store unchecked and [calculateNextDueDate] guards against
    a task without any baseline, so the field is kept optional here.  The
    last three fields are the derived ones. *)
Record Task : Type := mkTask {
  task_id : string;
  title : string;
  description : option string;
  frequency : TaskFrequency;
  priority : TaskPriority;
  isActive : bool;
  assignedToAllHelpers : bool;
  assignees : list string;
  startDate : option Z;
  lastCompletedAt : option Z;
  task_createdAt : option Z;
  task_updatedAt : Z;
  nextDueAt : option Z;
  status : option TaskStatus;
  lastThreeCompletions : option (list Z)
}.

Record CompletionLog : Type := mkLog {
  log_id : string;
  taskId : string;
  completedAt : Z;
  completedBy : string;
  completedByName : option string;
  note : option string;
  photos : list string;
  undoUntil : Z;
  log_createdAt : Z
}.

(** Object spread with one field replaced: [{ ...task, field: v }]. *)
Definition with_lastCompletedAt (t : Task) (v : option Z) : Task :=
  mkTask (task_id t) (title t) (description t) (frequency t) (priority t)
         (isActive t) (assignedToAllHelpers t) (assignees t) (startDate t)
         v (task_createdAt t) (task_updatedAt t) (nextDueAt t) (status t)
         (lastThreeCompletions t).

Definition with_updatedAt (t : Task) (v : Z) : Task :=
  mkTask (task_id t) (title t) (description t) (frequency t) (priority t)
         (isActive t) (assignedToAllHelpers t) (assignees t) (startDate t)
         (lastCompletedAt t) (task_createdAt t) v (nextDueAt t) (status t)
         (lastThreeCompletions t).

Definition with_derived (t : Task) (due : option Z) (st : option TaskStatus)
    (last3 : option (list Z)) : Task :=
  mkTask (task_id t) (title t) (description t) (frequency t) (priority t)
         (isActive t) (assignedToAllHelpers t) (assignees t) (startDate t)
         (lastCompletedAt t) (task_createdAt t) (task_updatedAt t) due st
         last3.

(** ** Due dates and status ([src/utils/date.ts]) *)

(** The zone ['Asia/Hong_Kong'], as its offset from UTC. *)
Definition TIMEZONE : Z := 8 * msPerHour.

(** [getHKTime]: [toZonedTime(new Date(), TIMEZONE)]; [clock] is the instant
    that [new Date()] reads. *)
Definition getHKTime (tz clock : Z) : Z := toZonedTime tz clock TIMEZONE.

Definition toHKTime (tz date : Z) : Z := toZonedTime tz date TIMEZONE.

(** [a || b] on optional dates: a [Date] object is always truthy. *)
Definition orDate (a b : option Z) : option Z :=
  match a with Some _ => a | None => b end.

Definition calculateNextDueDate (tz : Z) (task : Task) : option Z :=
  match orDate (lastCompletedAt task)
               (orDate (startDate task) (task_createdAt task)) with
  | None => None
  | Some baseline =>
      let baselineDate := startOfDay tz baseline in
      match frequency task with
      | weekly => Some (addDays tz baselineDate 7)
      | monthly => Some (addMonths tz baselineDate 1)
      end
  end.

Definition isWeekly (f : TaskFrequency) : bool :=
  match f with weekly => true | monthly => false end.

Definition isMonthly (f : TaskFrequency) : bool :=
  match f with weekly => false | monthly => true end.

Definition calculateTaskStatus (tz clock : Z) (task : Task) : TaskStatus :=
  match calculateNextDueDate tz task with
  | None => OK
  | Some nextDue =>
      let now := getHKTime tz clock in
      let today := startOfDay tz now in
      let nextDueDay := startOfDay tz nextDue in
      if isAfter today nextDueDay then Overdue
      else if isSameDay tz today nextDueDay then DueToday
      else
        let diffDays := differenceInDays tz nextDueDay today in
        if isWeekly (frequency task) && (diffDays <=? 3) then Upcoming
        else if isMonthly (frequency task) && (diffDays <=? 5) then Upcoming
        else OK
  end.

(** ** The object stores ([src/db/index.ts]) *)

(** The two object stores of the scheduling core, keyed by record id.
    [put] inserts or replaces, [delete] removes; a request on a missing key
    succeeds without effect. *)
Record Store : Type := mkStore {
  tasks : gmap string Task;
  completionLogs : gmap string CompletionLog
}.

Definition createCompletionLog (s : Store) (log : CompletionLog) : Store :=
  mkStore (tasks s) (<[log_id log := log]> (completionLogs s)).

Definition deleteCompletionLog (s : Store) (id : string) : Store :=
  mkStore (tasks s) (delete id (completionLogs s)).

(** [getAllFromIndex('completionLogs', 'by-task', taskId)]: the logs of one
    task.  The index returns them in key order; the model fixes some order,
    and every use below sorts the result by completion time first. *)
Definition getCompletionLogsByTask (s : Store) (tid : string)
    : list CompletionLog :=
  (map_to_list (filter (λ kv, taskId kv.2 = tid) (completionLogs s))).*2.

(** [updateTask] stamps the object it is given and stores it; the caller's
    reference sees the stamp, so the stamped task is returned as well. *)
Definition updateTask (clock : Z) (s : Store) (task : Task) : Store * Task :=
  let task' := with_updatedAt task clock in
  (mkStore (<[task_id task' := task']> (tasks s)) (completionLogs s), task').

Definition deleteTaskRecord (s : Store) (id : string) : Store :=
  mkStore (delete id (tasks s)) (completionLogs s).

(** [deleteTask]: the task record is deleted, then its logs are read from
    the index and deleted one request at a time. *)
Definition deleteTask (s : Store) (id : string) : Store :=
  let s1 := deleteTaskRecord s id in
  let logs := getCompletionLogsByTask s1 id in
  foldl (λ st log, deleteCompletionLog st (log_id log)) s1 logs.

(** The store after each awaited request of [deleteTask], in order. *)
Fixpoint deleteLogs_states (s : Store) (logs : list CompletionLog)
    : list Store :=
  match logs with
  | [] => []
  | log :: rest =>
      let s' := deleteCompletionLog s (log_id log) in
      s' :: deleteLogs_states s' rest
  end.

Definition deleteTask_states (s : Store) (id : string) : list Store :=
  let s1 := deleteTaskRecord s id in
  s1 :: deleteLogs_states s1 (getCompletionLogsByTask s1 id).

(** ** Enrichment, ledger, filters and sort ([src/utils/taskHelpers.ts]) *)

(** [Array.prototype.sort] with a comparator.  The language requires the
    sort to be stable, which determines its result for a comparator that
    orders by a key; it is computed here by insertion. *)
Fixpoint js_insert {A : Type} (cmp : A → A → Z) (x : A) (l : list A)
    : list A :=
  match l with
  | [] => [x]
  | y :: l' => if cmp x y <=? 0 then x :: l else y :: js_insert cmp x l'
  end.

Fixpoint js_sort {A : Type} (cmp : A → A → Z) (l : list A) : list A :=
  match l with
  | [] => []
  | x :: l' => js_insert cmp x (js_sort cmp l')
  end.

Definition byCompletedAtDesc (a b : CompletionLog) : Z :=
  completedAt b - completedAt a.

Definition getLastThreeCompletionDates (s : Store) (tid : string) : list Z :=
  completedAt <$> take 3 (js_sort byCompletedAtDesc
                                  (getCompletionLogsByTask s tid)).

Definition enrichTask (tz clock : Z) (s : Store) (task : Task) : Task :=
  let due := calculateNextDueDate tz task in
  let enriched1 := with_derived task due (status task)
                                (lastThreeCompletions task) in
  let st := calculateTaskStatus tz clock enriched1 in
  with_derived task due (Some st)
               (Some (getLastThreeCompletionDates s (task_id task))).

(** The id of a new log: ["log-" + Date.now() + "-" + random suffix]. *)
Definition newLogId (clock : Z) (rnd : string) : string :=
  "log-" +:+ pretty clock +:+ "-" +:+ rnd.

(** [markTaskComplete].  The operation is taken to run at one instant
    [clock]; [rnd] is the suffix drawn from [Math.random()]. *)
Definition markTaskComplete (tz clock : Z) (rnd : string) (s : Store)
    (task : Task) (by_ : string) (byName : string) (note_ : option string)
    (photos_ : list string) : Store * (Task * CompletionLog) :=
  let now := getHKTime tz clock in
  let undoUntil_ := now + 5 * 60 * 1000 in
  let log := mkLog (newLogId clock rnd) (task_id task) now by_ (Some byName)
                   note_ photos_ undoUntil_ now in
  let s1 := createCompletionLog s log in
  let updatedTask := with_lastCompletedAt task (Some now) in
  let enriched := enrichTask tz clock s1 updatedTask in
  let '(s2, enriched') := updateTask clock s1 enriched in
  (s2, (enriched', log)).

(** [undoTaskCompletion].  No comparison of the clock with the log's
    [undoUntil] takes place. *)
Definition undoTaskCompletion (tz clock : Z) (s : Store) (task : Task)
    (logId : string) : Store * Task :=
  let s1 := deleteCompletionLog s logId in
  let remainingLogs := getCompletionLogsByTask s1 (task_id task) in
  let lastCompletion :=
    if (0 <? length remainingLogs)%nat
    then completedAt <$> head (js_sort byCompletedAtDesc remainingLogs)
    else None in
  let updatedTask := with_lastCompletedAt task lastCompletion in
  let enriched := enrichTask tz clock s1 updatedTask in
  updateTask clock s1 enriched.

(** [Array.prototype.includes] on strings. *)
Fixpoint includes (l : list string) (x : string) : bool :=
  match l with
  | [] => false
  | y :: l' => if String.eqb y x then true else includes l' x
  end.

Definition filterTasksByAssignee (ts : list Task) (userId : string)
    (isOwner : bool) : list Task :=
  if isOwner then ts
  else List.filter
         (λ task, assignedToAllHelpers task || includes (assignees task) userId)
         ts.

Definition statusOrder (st : TaskStatus) : Z :=
  match st with
  | Overdue => 0
  | DueToday => 1
  | Upcoming => 2
  | OK => 3
  end.

Definition priorityOrder (p : TaskPriority) : Z :=
  match p with
  | High => 0
  | Medium => 1
  | Low => 2
  end.

(** [a.status || 'OK']. *)
Definition statusOrOK (t : Task) : TaskStatus := default OK (status t).

Definition byStatus (a b : Task) : Z :=
  statusOrder (statusOrOK a) - statusOrder (statusOrOK b).

Definition sortTasksByStatus (ts : list Task) : list Task :=
  js_sort byStatus ts.

(** The comparator written out in the reminders page, for comparison: it
    falls back on the priority when the statuses are equal. *)
Definition byStatusThenPriority (a b : Task) : Z :=
  let statusDiff := byStatus a b in
  if negb (statusDiff =? 0) then statusDiff
  else priorityOrder (priority a) - priorityOrder (priority b).

Definition TaskStatus_eqb (a b : TaskStatus) : bool :=
  match a, b with
  | Overdue, Overdue | DueToday, DueToday | Upcoming, Upcoming | OK, OK => true
  | _, _ => false
  end.

(** [t.status === st]: an unset status equals no status. *)
Definition hasStatus (st : TaskStatus) (t : Task) : bool :=
  match status t with
  | Some st' => TaskStatus_eqb st' st
  | None => false
  end.

Record StatusGroups : Type := mkGroups {
  grpOverdue : list Task;
  grpDueToday : list Task;
  grpUpcoming : list Task;
  grpOK : list Task
}.

Definition groupTasksByStatus (ts : list Task) : StatusGroups :=
  mkGroups (List.filter (hasStatus Overdue) ts)
           (List.filter (hasStatus DueToday) ts)
           (List.filter (hasStatus Upcoming) ts)
           (List.filter (hasStatus OK) ts).

Definition bucket (g : StatusGroups) (st : TaskStatus) : list Task :=
  match st with
  | Overdue => grpOverdue g
  | DueToday => grpDueToday g
  | Upcoming => grpUpcoming g
  | OK => grpOK g
  end.

(** ** Reference statements

    The behaviour the specification describes, written after its words;
    the properties below compare the functions above with these. *)

(** The month after month [m] of year [y]. *)
Definition nextMonth (y m : Z) : Z * Z :=
  if m =? 11 then (y + 1, 0) else (y, m + 1).

(** The time value of local midnight on day [d] of month [m] of year [y]. *)
Definition localMidnight (tz y m d : Z) : Z :=
  UTC tz (MakeDate (MakeDay y m d) 0).

(** "Baseline = lastCompletedAt if present, else startDate if present,
    else createdAt." *)
Definition baselineOf (task : Task) : option Z :=
  match lastCompletedAt task, startDate task, task_createdAt task with
  | Some d, _, _ => Some d
  | None, Some d, _ => Some d
  | None, None, c => c
  end.

(** "Baseline is truncated to the start of its calendar day; weekly: next
    due = baseline + 7 days; monthly: baseline + 1 calendar month (same
    day-of-month, with short-month clamping)."  The calendar day is read in
    the zone of offset [zone]. *)
Definition computeNextDue (zone : Z) (task : Task) : option Z :=
  match baselineOf task with
  | None => None
  | Some b =>
      let y := getFullYear zone b in
      let m := getMonth zone b in
      let d := getDate zone b in
      match frequency task with
      | weekly => Some (localMidnight zone y m d + 7 * msPerDay)
      | monthly =>
          let '(y', m') := nextMonth y m in
          Some (localMidnight zone y' m' (Z.min d (daysInMonth y' m')))
      end
  end.

(** "Upcoming when daysUntilDue <= 3 (weekly) or <= 5 (monthly)." *)
Definition upcomingWindow (f : TaskFrequency) : Z :=
  match f with weekly => 3 | monthly => 5 end.

(** The classifier of the specification, given the next due date and the
    normalized clock reading. *)
Definition classify (tz : Z) (f : TaskFrequency) (nextDue : option Z)
    (now : Z) : TaskStatus :=
  match nextDue with
  | None => OK
  | Some due =>
      let today := startOfDay tz now in
      let dueDay := startOfDay tz due in
      if dueDay <? today then Overdue
      else if dueDay =? today then DueToday
      else if (dueDay - today) / msPerDay <=? upcomingWindow f then Upcoming
      else OK
  end.

(** "The max completedAt among the task's logs (absent if none)." *)
Definition latestCompletedAt (logs : list CompletionLog) : option Z :=
  foldr (λ log acc,
           Some (match acc with
                 | Some m => Z.max (completedAt log) m
                 | None => completedAt log
                 end))
        None logs.

(** "lastCompletedAt is a cache of the most recent log's timestamp": the
    consistency predicate between a task and the stored logs. *)
Definition consistent (s : Store) (task : Task) : Prop :=
  lastCompletedAt task
  = latestCompletedAt (getCompletionLogsByTask s (task_id task)).

(** The log store has key path ['id']: a log is stored under its own id. *)
Definition keyPathOk (s : Store) : Prop :=
  ∀ k log, completionLogs s !! k = Some log → log_id log = k.

(** No stored log belongs to the task [id]. *)
Definition noLogsOf (s : Store) (id : string) : Prop :=
  ∀ k log, completionLogs s !! k = Some log → taskId log ≠ id.

(** "All of its logs are deleted first (or atomically with the task)": in
    no state that the store goes through is the task gone while one of its
    logs is still there. *)
Definition logsFirstOrAtomic (states : list Store) (id : string) : Prop :=
  Forall (λ st, tasks st !! id = None → noLogsOf st id) states.

(** The two sort keys of the specification. *)
Definition statusRank (t : Task) : Z := statusOrder (statusOrOK t).

Definition priorityRank (t : Task) : Z := priorityOrder (priority t).

(** "Primary key = status severity rank; secondary key = priority rank." *)
Definition statusThenPriority (a b : Task) : Prop :=
  statusRank a < statusRank b
  ∨ (statusRank a = statusRank b ∧ priorityRank a <= priorityRank b).

(** The task with an unset status replaced by [OK]. *)
Definition defaultedOK (t : Task) : Task :=
  with_derived t (nextDueAt t) (Some (statusOrOK t)) (lastThreeCompletions t).

(** ** Further functions of [src/utils/date.ts] *)

(** ECMAScript [WeekDay]: 0 is Sunday; 1 January 1970 was a Thursday. *)
Definition WeekDay (t : Z) : Z := (Day t + 4) mod 7.

Definition getDay (tz t : Z) : Z := WeekDay (LocalTime tz t).

(** [getRelativeTime]; [clock] is the instant read by [new Date()], and a
    number is printed in decimal. *)
Definition getRelativeTime (tz clock date : Z) : string :=
  let diffDays := differenceInDays tz clock date in
  if diffDays =? 0 then "Today"
  else if diffDays =? 1 then "Yesterday"
  else if diffDays =? -1 then "Tomorrow"
  else if 1 <? diffDays then pretty diffDays +:+ " days ago"
  else "in " +:+ pretty (Z.abs diffDays) +:+ " days".

(** [getLastThreeCompletions], with the log reader passed in. *)
Definition getLastThreeCompletions (tid : string)
    (getLogs : string → list CompletionLog) : list Z :=
  completedAt <$> take 3 (js_sort byCompletedAtDesc (getLogs tid)).

Definition calculateUndoUntil (completed : Z) : Z :=
  completed + 5 * 60 * 1000.

Definition canUndo (clock completed : Z) : bool :=
  clock <? calculateUndoUntil completed.

Definition getUndoRemainingSeconds (clock completed : Z) : Z :=
  let undoUntil_ := calculateUndoUntil completed in
  let remaining := Z.max 0 (undoUntil_ - clock) in
  remaining / 1000.

(** [String.prototype.padStart] with a filler of one character. *)
Fixpoint padding (n : nat) (c : Ascii.ascii) : string :=
  match n with
  | O => ""
  | S k => String c (padding k c)
  end.

Definition padStart (targetLength : nat) (c : Ascii.ascii) (s : string)
    : string :=
  padding (targetLength - String.length s) c +:+ s.

(** [formatCountdown] on a whole number of seconds: [Math.floor] of the
    quotient, and the remainder [%], which takes the sign of the dividend. *)
Definition formatCountdown (seconds : Z) : string :=
  let mins := seconds / 60 in
  let secs := Z.rem seconds 60 in
  padStart 2 "0"%char (pretty mins) +:+ ":"
  +:+ padStart 2 "0"%char (pretty secs).

(** The decimal digit [d] as a character, and the five characters
    [mm:ss] of a number of seconds below one hundred minutes. *)
Definition digitChar (d : Z) : Ascii.ascii :=
  Ascii.ascii_of_nat (48 + Z.to_nat d).

Definition mmss (seconds : Z) : string :=
  String (digitChar (seconds / 600))
    (String (digitChar (seconds / 60 mod 10))
       (String ":"%char
          (String (digitChar (seconds mod 60 / 10))
             (String (digitChar (seconds mod 10)) "")))).

(** [getWeekStart]: back to Monday with [setDate], then [startOfDay]. *)
Definition getWeekStart (tz date : Z) : Z :=
  let day := getDay tz date in
  let diff := getDate tz date - day + (if day =? 0 then -6 else 1) in
  startOfDay tz (setDate tz date diff).

Definition isSameDate (tz date1 date2 : Z) : bool := isSameDay tz date1 date2.

Definition addDaysToDate (tz date n : Z) : Z := addDays tz date n.

(** ** Further functions of [src/utils/taskHelpers.ts] *)

#[global] Instance TaskFrequency_eq_dec : EqDecision TaskFrequency.
Proof. solve_decision. Defined.

#[global] Instance TaskPriority_eq_dec : EqDecision TaskPriority.
Proof. solve_decision. Defined.

Definition TaskFrequency_eqb (a b : TaskFrequency) : bool :=
  match a, b with
  | weekly, weekly | monthly, monthly => true
  | _, _ => false
  end.

Definition TaskPriority_eqb (a b : TaskPriority) : bool :=
  match a, b with
  | High, High | Medium, Medium | Low, Low => true
  | _, _ => false
  end.

(** The filter argument ['all'] is [None]. *)
Definition filterTasksByFrequency (ts : list Task)
    (f : option TaskFrequency) : list Task :=
  match f with
  | None => ts
  | Some f' => List.filter (λ task, TaskFrequency_eqb (frequency task) f') ts
  end.

Definition filterTasksByPriority (ts : list Task)
    (p : option TaskPriority) : list Task :=
  match p with
  | None => ts
  | Some p' => List.filter (λ task, TaskPriority_eqb (priority task) p') ts
  end.

(** ** Further functions of [src/db/index.ts] *)

Definition createTask (s : Store) (task : Task) : Store :=
  mkStore (<[task_id task := task]> (tasks s)) (completionLogs s).

Definition getTaskById (s : Store) (id : string) : option Task :=
  tasks s !! id.

Definition getAllTasks (s : Store) : list Task := (map_to_list (tasks s)).*2.

Definition getCompletionLogById (s : Store) (id : string)
    : option CompletionLog :=
  completionLogs s !! id.

Definition getAllCompletionLogs (s : Store) : list CompletionLog :=
  (map_to_list (completionLogs s)).*2.

(** ** The task lists of the pages *)

(** The list that [TasksPage] shows, from the enriched tasks: the inline
    visibility, frequency and priority filters, the owner's assignee filter,
    then [sortTasksByStatus]. *)
Definition tasksPageList (enrichedTasks : list Task) (userId : string)
    (isOwner : bool) (frequencyFilter : option TaskFrequency)
    (priorityFilter : option TaskPriority) (assigneeFilter : option string)
    : list Task :=
  let filtered0 :=
    if isOwner then enrichedTasks
    else List.filter
           (λ t, assignedToAllHelpers t || includes (assignees t) userId)
           enrichedTasks in
  let filtered1 :=
    match frequencyFilter with
    | None => filtered0
    | Some f => List.filter (λ t, TaskFrequency_eqb (frequency t) f) filtered0
    end in
  let filtered2 :=
    match priorityFilter with
    | None => filtered1
    | Some p => List.filter (λ t, TaskPriority_eqb (priority t) p) filtered1
    end in
  let filtered3 :=
    match assigneeFilter with
    | Some a =>
        if isOwner
        then List.filter
               (λ t, assignedToAllHelpers t || includes (assignees t) a)
               filtered2
        else filtered2
    | None => filtered2
    end in
  sortTasksByStatus filtered3.

(** The list that [RemindersPage] keeps: visible, active, sorted in place
    by status and then priority. *)
Definition remindersPageList (enrichedTasks : list Task) (userId : string)
    (isOwner : bool) : list Task :=
  let filtered0 :=
    if isOwner then enrichedTasks
    else List.filter
           (λ t, assignedToAllHelpers t || includes (assignees t) userId)
           enrichedTasks in
  let filtered1 := List.filter isActive filtered0 in
  js_sort byStatusThenPriority filtered1.


(** What the filters of the task page ask of a task, as one test. *)
Definition matchesFrequency (f : option TaskFrequency) (t : Task) : bool :=
  match f with
  | None => true
  | Some f' => TaskFrequency_eqb (frequency t) f'
  end.

Definition matchesPriority (p : option TaskPriority) (t : Task) : bool :=
  match p with
  | None => true
  | Some p' => TaskPriority_eqb (priority t) p'
  end.

Definition visibleTo (userId : string) (isOwner : bool) (t : Task) : bool :=
  isOwner || assignedToAllHelpers t || includes (assignees t) userId.

Definition matchesAssignee (isOwner : bool) (a : option string) (t : Task)
    : bool :=
  match a with
  | Some a' =>
      if isOwner then assignedToAllHelpers t || includes (assignees t) a'
      else true
  | None => true
  end.

(** ** The meal plan ([src/db/index.ts] and [MealPlanPage]) *)

Inductive MealType : Type := breakfast | lunch | dinner.

Definition MealType_eqb (a b : MealType) : bool :=
  match a, b with
  | breakfast, breakfast | lunch, lunch | dinner, dinner => true
  | _, _ => false
  end.

Record DailyMealOverride : Type := mkOverride {
  override_id : string;
  override_date : Z;
  override_mealType : MealType;
  selectedItems : list string;
  override_note : option string;
  createdBy : string;
  override_updatedAt : Z
}.

(** The object store ['dailyMealOverrides'] is a map from ids to
    overrides. *)
Definition createDailyMealOverride (m : gmap string DailyMealOverride)
    (override : DailyMealOverride) : gmap string DailyMealOverride :=
  <[override_id override := override]> m.

Definition deleteDailyMealOverride (m : gmap string DailyMealOverride)
    (id : string) : gmap string DailyMealOverride :=
  delete id m.

(** [getDailyMealOverridesByDate]: all overrides, filtered by the local
    midnight of their date. *)
Definition getDailyMealOverridesByDate (tz : Z)
    (m : gmap string DailyMealOverride) (date : Z)
    : list DailyMealOverride :=
  let allOverrides := (map_to_list m).*2 in
  let targetDate := setHours tz date 0 0 0 0 in
  List.filter (λ o, setHours tz (override_date o) 0 0 0 0 =? targetDate)
              allOverrides.

(** [clearDailyMealOverrideByDateAndType]: one delete request for each
    override of the day that has the meal type. *)
Definition clearDailyMealOverrideByDateAndType (tz : Z)
    (m : gmap string DailyMealOverride) (date : Z) (mealType : MealType)
    : gmap string DailyMealOverride :=
  let overrides := getDailyMealOverridesByDate tz m date in
  foldl (λ st override,
           if MealType_eqb (override_mealType override) mealType
           then delete (override_id override) st
           else st)
        m overrides.

(** [getOverrideForMeal] of the page, on the overrides it has loaded. *)
Definition getOverrideForMeal (tz : Z) (dailyOverrides : list DailyMealOverride)
    (date : Z) (mealType : MealType) : option DailyMealOverride :=
  List.find (λ o, (setHours tz (override_date o) 0 0 0 0
                   =? setHours tz date 0 0 0 0)
                  && MealType_eqb (override_mealType o) mealType)
            dailyOverrides.

(** [handleSaveOverride]: the existing override of the day and meal is
    cleared, then the new one is stored under ["override-" + Date.now()]. *)
Definition handleSaveOverride (tz clock : Z)
    (m : gmap string DailyMealOverride)
    (overrideDate : Z) (overrideMealType : MealType) (allItems : list string)
    (overrideNote : string) (userId : string)
    : gmap string DailyMealOverride * DailyMealOverride :=
  let m1 := clearDailyMealOverrideByDateAndType tz m overrideDate
                                                overrideMealType in
  let override := mkOverride ("override-" +:+ pretty clock) overrideDate
                             overrideMealType allItems (Some overrideNote)
                             userId (getHKTime tz clock) in
  (createDailyMealOverride m1 override, override).

Record DayMealPlan : Type := mkDayPlan {
  breakfastSelectedItems : list string;
  lunchSelectedItems : list string;
  dinnerSelectedItems : list string;
  breakfastNote : option string;
  lunchNote : option string;
  dinnerNote : option string
}.

Record WeeklyMealPlan : Type := mkWeekPlan {
  plan_id : string;
  weekStartDate : Z;
  monday : DayMealPlan;
  tuesday : DayMealPlan;
  wednesday : DayMealPlan;
  thursday : DayMealPlan;
  friday : DayMealPlan;
  saturday : DayMealPlan;
  sunday : DayMealPlan;
  plan_createdBy : string;
  plan_updatedAt : Z
}.

(** The property access [weeklyPlan[dayName]] on the names of the days. *)
Definition planOfDay (plan : WeeklyMealPlan) (dayName : string)
    : option DayMealPlan :=
  if String.eqb dayName "sunday" then Some (sunday plan)
  else if String.eqb dayName "monday" then Some (monday plan)
  else if String.eqb dayName "tuesday" then Some (tuesday plan)
  else if String.eqb dayName "wednesday" then Some (wednesday plan)
  else if String.eqb dayName "thursday" then Some (thursday plan)
  else if String.eqb dayName "friday" then Some (friday plan)
  else if String.eqb dayName "saturday" then Some (saturday plan)
  else None.

Definition dayNames : list string :=
  ["sunday"; "monday"; "tuesday"; "wednesday"; "thursday"; "friday";
   "saturday"].

(** [getDayPlan] of the page: the plan stored under the name of the date's
    day of the week. *)
Definition getDayPlan (tz : Z) (weeklyPlan : option WeeklyMealPlan) (date : Z)
    : option DayMealPlan :=
  match weeklyPlan with
  | None => None
  | Some plan =>
      match dayNames !! Z.to_nat (getDay tz date) with
      | Some dayName => planOfDay plan dayName
      | None => None
      end
  end.

(** The seven cards of the week view: the label of each card and the plan
    that [getDayPlan] finds for the day [idx] days after the week's start. *)
Definition weekCards (tz : Z) (weeklyPlan : option WeeklyMealPlan)
    (weekStart : Z) : list (string * option DayMealPlan) :=
  imap (λ idx day,
          let dayDate := addDaysToDate tz weekStart (Z.of_nat idx) in
          (day, getDayPlan tz weeklyPlan dayDate))
       ["monday"; "tuesday"; "wednesday"; "thursday"; "friday"; "saturday";
        "sunday"].

(** The key path of the override store, and what [handleSaveOverride]
    replaces: the overrides of a local day and a meal. *)
Definition overrideKeyPathOk (m : gmap string DailyMealOverride) : Prop :=
  ∀ k o, m !! k = Some o → override_id o = k.

Definition isOverrideFor (tz : Z) (date : Z) (mealType : MealType)
    (o : DailyMealOverride) : Prop :=
  startOfDay tz (override_date o) = startOfDay tz date
  ∧ override_mealType o = mealType.

(** ** Sample records

    Concrete tasks, logs and stores on which the functions are run. *)

(** 2024-01-01T00:00:00Z. *)
Definition jan1_2024 : Z := 1704067200000.

Definition hours (n : Z) : Z := n * msPerHour.

Definition days (n : Z) : Z := n * msPerDay.

(** A task in the shape the seed gives it, with the given completion
    state. *)
Definition choreTask (id : string) (f : TaskFrequency) (p : TaskPriority)
    (st : option TaskStatus) (last : option Z) : Task :=
  mkTask id "Vacuum" (Some "Vacuum all carpeted areas") f p true true []
         (Some jan1_2024) last (Some jan1_2024) jan1_2024 None st None.

Definition choreLog (id tid : string) (t : Z) : CompletionLog :=
  mkLog id tid t "helper-1" (Some "Helper") None [] (t + 5 * 60 * 1000) t.

(** A task completed once, ten days into the year. *)
Definition doneOnce : Task :=
  choreTask "t1" weekly High None (Some (jan1_2024 + days 10)).

Definition oneLogStore : Store :=
  mkStore {[ "t1" := doneOnce ]}
          {[ "log-a" := choreLog "log-a" "t1" (jan1_2024 + days 10) ]}.

(** A task with three completions, and a log of another task. *)
Definition doneThrice : Task :=
  choreTask "t1" weekly High None (Some (jan1_2024 + days 24)).

Definition threeLogStore : Store :=
  mkStore {[ "t1" := doneThrice ]}
          (<["log-a" := choreLog "log-a" "t1" (jan1_2024 + days 10)]>
           (<["log-b" := choreLog "log-b" "t1" (jan1_2024 + days 17)]>
            (<["log-c" := choreLog "log-c" "t1" (jan1_2024 + days 24)]>
             {[ "log-z" := choreLog "log-z" "t2" (jan1_2024 + days 3) ]}))).

(** A task assigned to all helpers or to the listed ones. *)
Definition assignedTask (id : string) (all : bool) (who : list string)
    : Task :=
  mkTask id "Dust shelves" None weekly Medium true all who (Some jan1_2024)
         None (Some jan1_2024) jan1_2024 None None None.

(** A task as the seed creates it, at 2024-01-01T20:00:00Z: the start and
    creation dates are plain [new Date()] instants.  In Hong Kong that
    instant falls on 2 January, 04:00. *)
Definition seededTask : Task :=
  mkTask "task-1704139200000-x7f3k2m9q" "Vacuum"
         (Some "Vacuum all carpeted areas") weekly Medium true true []
         (Some (jan1_2024 + hours 20)) None (Some (jan1_2024 + hours 20))
         (jan1_2024 + hours 20) None None None.

(** An override of the lunch of 1 January 2024, in the store. *)
Definition lunchOverride : DailyMealOverride :=
  mkOverride "override-1" (jan1_2024 + hours 3) lunch ["congee"] None
             "owner-1" jan1_2024.

Definition oneOverrideStore : gmap string DailyMealOverride :=
  {[ "override-1" := lunchOverride ]}.

(** * Properties *)

(** ** The calendar *)

Module JSDateFacts.

Lemma msPerDay_pos : 0 < msPerDay.
Proof. unfold msPerDay; lia. Qed.

Lemma Day_TimeWithinDay t : t = Day t * msPerDay + TimeWithinDay t.
Proof.
  unfold Day, TimeWithinDay.
  pose proof (Z.div_mod t msPerDay) as H. pose proof msPerDay_pos. lia.
Qed.

Lemma TimeWithinDay_range t : 0 <= TimeWithinDay t < msPerDay.
Proof. unfold TimeWithinDay. apply Z.mod_pos_bound, msPerDay_pos. Qed.

Lemma Day_MakeDate d time :
  0 <= time < msPerDay → Day (MakeDate d time) = d.
Proof.
  intros H. unfold Day, MakeDate.
  rewrite Z.add_comm, Z.div_add by (unfold msPerDay; lia).
  rewrite Z.div_small; lia.
Qed.

Lemma TimeWithinDay_MakeDate d time :
  0 <= time < msPerDay → TimeWithinDay (MakeDate d time) = time.
Proof.
  intros H. unfold TimeWithinDay, MakeDate.
  rewrite Z.add_comm, Z.mod_add by (unfold msPerDay; lia).
  apply Z.mod_small; lia.
Qed.

Lemma MakeDate_Day t : MakeDate (Day t) (TimeWithinDay t) = t.
Proof. unfold MakeDate. symmetry. apply Day_TimeWithinDay. Qed.

Lemma LeapOfYear_cases y : LeapOfYear y = 0 ∨ LeapOfYear y = 1.
Proof. unfold LeapOfYear. destruct (_ =? _); auto. Qed.

Lemma DaysInYear_leap y : DaysInYear y = 365 + LeapOfYear y.
Proof.
  unfold LeapOfYear, DaysInYear.
  repeat (destruct (negb _)); reflexivity.
Qed.

Lemma DayFromYear_succ y : DayFromYear (y + 1) = DayFromYear y + DaysInYear y.
Proof.
  unfold DayFromYear, DaysInYear.
  destruct (Z.eqb_spec (y mod 4) 0); cbn [negb];
    [| Z.div_mod_to_equations; lia].
  destruct (Z.eqb_spec (y mod 100) 0); cbn [negb];
    [| Z.div_mod_to_equations; lia].
  destruct (Z.eqb_spec (y mod 400) 0); cbn [negb];
    Z.div_mod_to_equations; lia.
Qed.

Lemma DayFromYear_lt y1 y2 : y1 < y2 → DayFromYear y1 < DayFromYear y2.
Proof. unfold DayFromYear. intros. Z.div_mod_to_equations. lia. Qed.

Lemma DayFromYear_le y1 y2 : y1 <= y2 → DayFromYear y1 <= DayFromYear y2.
Proof.
  intros H. destruct (Z.eq_dec y1 y2) as [->|]; [lia|].
  apply Z.lt_le_incl, DayFromYear_lt. lia.
Qed.

(** [YearFromDay d] is the year whose days contain [d]. *)
Lemma YearFromDay_spec d :
  DayFromYear (YearFromDay d) <= d < DayFromYear (YearFromDay d + 1).
Proof.
  unfold YearFromDay.
  destruct (Z.ltb_spec d (DayFromYear (1970 + 400 * d / 146097))).
  - split.
    + unfold DayFromYear in *. Z.div_mod_to_equations. lia.
    + replace (1970 + 400 * d / 146097 - 1 + 1)
        with (1970 + 400 * d / 146097) by lia. lia.
  - destruct (Z.leb_spec (DayFromYear (1970 + 400 * d / 146097 + 1)) d).
    + split; [lia|]. unfold DayFromYear in *. Z.div_mod_to_equations. lia.
    + lia.
Qed.

Lemma YearFromDay_unique d y :
  DayFromYear y <= d < DayFromYear (y + 1) → YearFromDay d = y.
Proof.
  intros [Hlo Hhi]. pose proof (YearFromDay_spec d) as [Hlo' Hhi'].
  destruct (Z.lt_trichotomy (YearFromDay d) y) as [Hlt | [Heq | Hgt]];
    [| exact Heq |].
  - pose proof (DayFromYear_le (YearFromDay d + 1) y). lia.
  - pose proof (DayFromYear_le (y + 1) (YearFromDay d)). lia.
Qed.

Lemma YearFromDay_mono d1 d2 : d1 <= d2 → YearFromDay d1 <= YearFromDay d2.
Proof.
  intros H. pose proof (YearFromDay_spec d1). pose proof (YearFromDay_spec d2).
  destruct (Z.le_gt_cases (YearFromDay d1) (YearFromDay d2)); [assumption|].
  pose proof (DayFromYear_le (YearFromDay d2 + 1) (YearFromDay d1)). lia.
Qed.

Lemma DayWithinYear_range t :
  0 <= DayWithinYear t < 365 + InLeapYear t.
Proof.
  unfold DayWithinYear, InLeapYear, YearFromTime.
  pose proof (YearFromDay_spec (Day t)) as H.
  rewrite DayFromYear_succ, DaysInYear_leap in H. lia.
Qed.

Ltac month_cases m :=
  let H := fresh in
  assert (H : m = 0 ∨ m = 1 ∨ m = 2 ∨ m = 3 ∨ m = 4 ∨ m = 5 ∨ m = 6 ∨
              m = 7 ∨ m = 8 ∨ m = 9 ∨ m = 10 ∨ m = 11) by lia;
  destruct H as [-> | [-> | [-> | [-> | [-> | [-> | [-> | [-> | [-> | [-> |
                [-> | ->]]]]]]]]]]].

Lemma monthStart_succ y m :
  0 <= m < 11 → monthStart y (m + 1) = monthStart y m + daysInMonth y m.
Proof.
  intros H. month_cases m; unfold monthStart, daysInMonth; simpl; lia.
Qed.

Lemma monthStart_last y : monthStart y 11 + daysInMonth y 11 = DaysInYear y.
Proof. rewrite DaysInYear_leap. unfold monthStart, daysInMonth; simpl; lia. Qed.

Lemma daysInMonth_range y m : 28 <= daysInMonth y m <= 31.
Proof.
  unfold daysInMonth. pose proof (LeapOfYear_cases y).
  repeat (destruct (_ =? _); simpl); lia.
Qed.

(** The month and the date of a time value, characterised by the table of
    month starts. *)
Lemma MonthFromTime_spec t :
  let y := YearFromTime t in
  let m := MonthFromTime t in
  0 <= m <= 11 ∧
  monthStart y m <= DayWithinYear t < monthStart y m + daysInMonth y m.
Proof.
  pose proof (DayWithinYear_range t) as Hr.
  unfold MonthFromTime, monthStart, daysInMonth. cbv zeta.
  fold (InLeapYear t).
  pose proof (LeapOfYear_cases (YearFromTime t)) as HL.
  fold (InLeapYear t) in HL.
  repeat match goal with
         | |- context [if ?a <? ?b then _ else _] =>
             destruct (Z.ltb_spec a b)
         end; simpl; lia.
Qed.

Lemma MonthFromTime_range t : 0 <= MonthFromTime t <= 11.
Proof. apply (MonthFromTime_spec t). Qed.

Lemma DateFromTime_range t :
  1 <= DateFromTime t <= daysInMonth (YearFromTime t) (MonthFromTime t).
Proof.
  pose proof (MonthFromTime_spec t) as [_ H]. unfold DateFromTime. lia.
Qed.

Lemma MakeDay_inrange y m d :
  0 <= m <= 11 → MakeDay y m d = DayFromYear y + monthStart y m + d - 1.
Proof.
  intros H. unfold MakeDay.
  rewrite Z.div_small, Z.mod_small by lia. by rewrite Z.add_0_r.
Qed.

(** Reading the fields of a time value and making a day from them gives
    the day back; another date counts on from it. *)
Lemma MakeDay_fields t dt :
  MakeDay (YearFromTime t) (MonthFromTime t) dt
  = Day t + (dt - DateFromTime t).
Proof.
  rewrite MakeDay_inrange by apply MonthFromTime_range.
  unfold DateFromTime, DayWithinYear. lia.
Qed.

Lemma MakeDay_year_range y m d :
  0 <= m <= 11 → 1 <= d <= daysInMonth y m →
  DayFromYear y <= MakeDay y m d < DayFromYear (y + 1).
Proof.
  intros Hm Hd. rewrite MakeDay_inrange by assumption.
  rewrite DayFromYear_succ, DaysInYear_leap.
  pose proof (LeapOfYear_cases y).
  revert Hd. month_cases m; unfold monthStart, daysInMonth; simpl; lia.
Qed.

(** The fields of a day made from a valid civil date are that date. *)
Lemma fields_MakeDay y m d time :
  0 <= m <= 11 → 1 <= d <= daysInMonth y m → 0 <= time < msPerDay →
  let t := MakeDate (MakeDay y m d) time in
  YearFromTime t = y ∧ MonthFromTime t = m ∧ DateFromTime t = d.
Proof.
  intros Hm Hd Ht t.
  assert (HD : Day t = MakeDay y m d) by (by apply Day_MakeDate).
  assert (Hy : YearFromTime t = y).
  { unfold YearFromTime. rewrite HD.
    by apply YearFromDay_unique, MakeDay_year_range. }
  assert (Hw : DayWithinYear t = monthStart y m + d - 1).
  { unfold DayWithinYear. rewrite Hy, HD, MakeDay_inrange by assumption. lia. }
  assert (Hmm : MonthFromTime t = m).
  { unfold MonthFromTime, InLeapYear. rewrite Hw, Hy.
    pose proof (LeapOfYear_cases y).
    revert Hd. month_cases m; unfold monthStart, daysInMonth; simpl; intros;
    repeat match goal with
           | |- context [if ?a <? ?b then _ else _] =>
               destruct (Z.ltb_spec a b); try lia
           end. }
  split; [assumption|]. split; [assumption|].
  unfold DateFromTime. rewrite Hw, Hy, Hmm. lia.
Qed.

End JSDateFacts.

(** ** Dates in a zone of constant offset *)

Module DateFnsFacts.

Import JSDateFacts.

Section HostZone.

Variable tz : Z.

Lemma MakeTime_zero : MakeTime 0 0 0 0 = 0.
Proof. reflexivity. Qed.

(** Local midnight of the local calendar day of [d]. *)
Lemma startOfDay_eq d : startOfDay tz d = Day (d + tz) * msPerDay - tz.
Proof.
  unfold startOfDay, setHours, UTC, LocalTime. rewrite MakeTime_zero.
  unfold MakeDate. lia.
Qed.

Lemma startOfDay_Day d : Day (startOfDay tz d + tz) = Day (d + tz).
Proof.
  rewrite startOfDay_eq.
  replace (Day (d + tz) * msPerDay - tz + tz)
    with (MakeDate (Day (d + tz)) 0) by (unfold MakeDate; lia).
  apply Day_MakeDate. pose proof msPerDay_pos. lia.
Qed.

Lemma startOfDay_idemp d : startOfDay tz (startOfDay tz d) = startOfDay tz d.
Proof. rewrite (startOfDay_eq (startOfDay tz d)), startOfDay_Day.
       symmetry. apply startOfDay_eq. Qed.

Lemma startOfDay_le d : startOfDay tz d <= d < startOfDay tz d + msPerDay.
Proof.
  rewrite startOfDay_eq.
  pose proof (Day_TimeWithinDay (d + tz)).
  pose proof (TimeWithinDay_range (d + tz)). lia.
Qed.

Lemma startOfDay_time d : TimeWithinDay (LocalTime tz (startOfDay tz d)) = 0.
Proof.
  rewrite startOfDay_eq. unfold LocalTime.
  replace (Day (d + tz) * msPerDay - tz + tz)
    with (MakeDate (Day (d + tz)) 0) by (unfold MakeDate; lia).
  apply TimeWithinDay_MakeDate. pose proof msPerDay_pos. lia.
Qed.

(** The time of day plays no part in [startOfDay]. *)
Lemma startOfDay_same_day d1 d2 :
  Day (LocalTime tz d1) = Day (LocalTime tz d2) →
  startOfDay tz d1 = startOfDay tz d2.
Proof. unfold LocalTime. intros H. by rewrite !startOfDay_eq, H. Qed.

Lemma startOfDay_fields d :
  getFullYear tz (startOfDay tz d) = getFullYear tz d ∧
  getMonth tz (startOfDay tz d) = getMonth tz d ∧
  getDate tz (startOfDay tz d) = getDate tz d.
Proof.
  unfold getFullYear, getMonth, getDate, DateFromTime, MonthFromTime,
    InLeapYear, DayWithinYear, YearFromTime, LocalTime.
  by rewrite startOfDay_Day.
Qed.

(** Setting the date to the current date plus [n] moves the time value by
    [n] days. *)
Lemma setDate_add t n : setDate tz t (getDate tz t + n) = t + n * msPerDay.
Proof.
  unfold setDate, getDate, UTC. cbv zeta.
  rewrite MakeDay_fields. unfold MakeDate.
  pose proof (Day_TimeWithinDay (LocalTime tz t)). unfold LocalTime in *. lia.
Qed.

Lemma addDays_eq d n : addDays tz d n = d + n * msPerDay.
Proof.
  unfold addDays. destruct (Z.eqb_spec n 0) as [-> | _]; [lia|].
  apply setDate_add.
Qed.

Lemma MakeTime_fields t :
  MakeTime (HourFromTime t) (MinFromTime t) (SecFromTime t) (msFromTime t)
  = TimeWithinDay t.
Proof.
  unfold MakeTime, HourFromTime, MinFromTime, SecFromTime, msFromTime,
    TimeWithinDay, msPerHour, msPerMinute, msPerSecond, msPerDay.
  Z.div_mod_to_equations. lia.
Qed.

(** In a host zone of constant offset, [toZonedTime] shifts the time value
    by the difference of the two offsets. *)
Lemma toZonedTime_eq d off : toZonedTime tz d off = d + off - tz.
Proof.
  unfold toZonedTime, setHours, setFullYear, UTC, LocalTime. cbv zeta.
  rewrite MakeTime_fields.
  replace (MakeDate (MakeDay (YearFromTime (d + off)) (MonthFromTime (d + off))
                       (DateFromTime (d + off))) (TimeWithinDay (0 + tz))
           - tz + tz)
    with (MakeDate (MakeDay (YearFromTime (d + off)) (MonthFromTime (d + off))
                       (DateFromTime (d + off))) (TimeWithinDay (0 + tz)))
    by lia.
  rewrite Day_MakeDate by apply TimeWithinDay_range.
  rewrite MakeDay_fields. unfold MakeDate.
  pose proof (Day_TimeWithinDay (d + off)). lia.
Qed.

Lemma differenceInCalendarDays_Day a b :
  differenceInCalendarDays tz a b
  = Day (LocalTime tz a) - Day (LocalTime tz b).
Proof.
  unfold differenceInCalendarDays, getTimezoneOffsetInMilliseconds, LocalTime.
  cbv zeta. rewrite !startOfDay_eq.
  replace (Day (a + tz) * msPerDay - tz
           - (Day (a + tz) * msPerDay - tz
              - (Day (a + tz) * msPerDay - tz + tz))
           - (Day (b + tz) * msPerDay - tz
              - (Day (b + tz) * msPerDay - tz
                 - (Day (b + tz) * msPerDay - tz + tz))))
    with ((Day (a + tz) - Day (b + tz)) * msPerDay) by lia.
  apply Z.div_mul. unfold msPerDay; lia.
Qed.

Lemma orElse_neg x y : x < 0 → orElse x y < 0.
Proof. unfold orElse. destruct (Z.eqb_spec x 0); lia. Qed.

Lemma orElse_zero y : orElse 0 y = y.
Proof. reflexivity. Qed.

Lemma orElse_pos x y : 0 < x → 0 < orElse x y.
Proof. unfold orElse. destruct (Z.eqb_spec x 0); lia. Qed.

Lemma Day_mono a b : a <= b → Day a <= Day b.
Proof. intros. apply Z.div_le_mono; [apply msPerDay_pos | assumption]. Qed.

Lemma monthStart_mono y m1 m2 :
  0 <= m1 → m1 < m2 → m2 <= 11 →
  monthStart y m1 + daysInMonth y m1 <= monthStart y m2.
Proof.
  intros H1 H12 H2. pose proof (LeapOfYear_cases y).
  month_cases m1; month_cases m2; try lia;
    unfold monthStart, daysInMonth; simpl; lia.
Qed.

(** Within one year the month grows with the day. *)
Lemma MonthFromTime_mono a b :
  YearFromTime a = YearFromTime b → Day a <= Day b →
  MonthFromTime a <= MonthFromTime b.
Proof.
  intros Hy Hd.
  pose proof (MonthFromTime_spec a) as [Ha1 Ha2].
  pose proof (MonthFromTime_spec b) as [Hb1 Hb2].
  cbv zeta in *. unfold DayWithinYear in *. rewrite Hy in *.
  destruct (Z.le_gt_cases (MonthFromTime a) (MonthFromTime b)); [assumption|].
  pose proof (monthStart_mono (YearFromTime b) (MonthFromTime b)
                (MonthFromTime a)). lia.
Qed.

Lemma DateFromTime_diff a b :
  YearFromTime a = YearFromTime b → MonthFromTime a = MonthFromTime b →
  DateFromTime a - DateFromTime b = Day a - Day b.
Proof.
  intros Hy Hm. unfold DateFromTime, DayWithinYear. rewrite Hy, Hm. lia.
Qed.

(** The four time-of-day fields, compared in order, compare the time
    within the day. *)
Lemma timeFields_lt a b :
  Day a = Day b → a < b →
  orElse (HourFromTime a - HourFromTime b)
 (orElse (MinFromTime a - MinFromTime b)
 (orElse (SecFromTime a - SecFromTime b)
         (msFromTime a - msFromTime b))) < 0.
Proof.
  unfold Day, HourFromTime, MinFromTime, SecFromTime, msFromTime, orElse,
    msPerDay, msPerHour, msPerMinute, msPerSecond.
  intros HD Hlt.
  repeat match goal with
         | |- context [if ?x =? 0 then _ else _] => destruct (Z.eqb_spec x 0)
         end; Z.div_mod_to_equations; lia.
Qed.

Lemma localFields_lt a b :
  a < b →
  orElse (YearFromTime a - YearFromTime b)
 (orElse (MonthFromTime a - MonthFromTime b)
 (orElse (DateFromTime a - DateFromTime b)
 (orElse (HourFromTime a - HourFromTime b)
 (orElse (MinFromTime a - MinFromTime b)
 (orElse (SecFromTime a - SecFromTime b)
         (msFromTime a - msFromTime b)))))) < 0.
Proof.
  intros Hlt.
  assert (HD : Day a <= Day b) by (apply Day_mono; lia).
  assert (HY : YearFromTime a <= YearFromTime b)
    by (by apply YearFromDay_mono).
  destruct (Z.eq_dec (YearFromTime a) (YearFromTime b)) as [Hy | Hy];
    [| apply orElse_neg; lia].
  replace (YearFromTime a - YearFromTime b) with 0 by lia.
  rewrite orElse_zero.
  pose proof (MonthFromTime_mono a b Hy HD) as HM.
  destruct (Z.eq_dec (MonthFromTime a) (MonthFromTime b)) as [Hm | Hm];
    [| apply orElse_neg; lia].
  replace (MonthFromTime a - MonthFromTime b) with 0 by lia.
  rewrite orElse_zero, (DateFromTime_diff a b Hy Hm).
  destruct (Z.eq_dec (Day a) (Day b)) as [Hd | Hd];
    [| apply orElse_neg; lia].
  replace (Day a - Day b) with 0 by lia. rewrite orElse_zero.
  by apply timeFields_lt.
Qed.

Lemma localDiff_lt a b : a < b → localDiff tz a b < 0.
Proof.
  intros H. unfold localDiff, getFullYear, getMonth, getDate, getHours,
    getMinutes, getSeconds, getMilliseconds.
  apply localFields_lt. unfold LocalTime. lia.
Qed.

Lemma localDiff_opp a b : localDiff tz a b = - localDiff tz b a.
Proof.
  unfold localDiff, orElse.
  repeat match goal with
         | |- context [if ?x =? 0 then _ else _] => destruct (Z.eqb_spec x 0)
         end; lia.
Qed.

(** [compareLocalAsc] is the sign of the difference of the time values. *)
Lemma compareLocalAsc_sgn a b : compareLocalAsc tz a b = Z.sgn (a - b).
Proof.
  unfold compareLocalAsc. cbv zeta.
  destruct (Z.lt_trichotomy a b) as [Hlt | [-> | Hgt]].
  - pose proof (localDiff_lt a b Hlt).
    destruct (Z.ltb_spec (localDiff tz a b) 0); lia.
  - pose proof (localDiff_opp b b).
    destruct (Z.ltb_spec (localDiff tz b b) 0); [lia|].
    destruct (Z.ltb_spec 0 (localDiff tz b b)); lia.
  - pose proof (localDiff_lt b a Hgt). pose proof (localDiff_opp a b).
    destruct (Z.ltb_spec (localDiff tz a b) 0); [lia|].
    destruct (Z.ltb_spec 0 (localDiff tz a b)); lia.
Qed.

(** [differenceInDays] counts the full days between two time values,
    rounding towards zero. *)
Lemma differenceInDays_quot a b :
  differenceInDays tz a b = (a - b) ÷ msPerDay.
Proof.
  unfold differenceInDays. cbv zeta.
  rewrite (compareLocalAsc_sgn a b), differenceInCalendarDays_Day.
  set (k := Z.abs (Day (LocalTime tz a) - Day (LocalTime tz b))).
  replace (getDate tz a - Z.sgn (a - b) * k)
    with (getDate tz a + - (Z.sgn (a - b) * k)) by lia.
  rewrite setDate_add, compareLocalAsc_sgn.
  subst k. unfold Day, LocalTime, msPerDay.
  destruct (Z.lt_trichotomy a b) as [Hlt | [-> | Hgt]].
  - rewrite (Z.sgn_neg (a - b)) by lia.
    match goal with
    | |- context [if ?x =? ?y then _ else _] => destruct (Z.eqb_spec x y)
    end; Z.div_mod_to_equations; Z.quot_rem_to_equations; lia.
  - rewrite Z.sub_diag. reflexivity.
  - rewrite (Z.sgn_pos (a - b)) by lia.
    match goal with
    | |- context [if ?x =? ?y then _ else _] => destruct (Z.eqb_spec x y)
    end; Z.div_mod_to_equations; Z.quot_rem_to_equations; lia.
Qed.

(** Between two local midnights the count is the exact quotient. *)
Lemma differenceInDays_midnights a b :
  b <= a →
  differenceInDays tz (startOfDay tz a) (startOfDay tz b)
  = (startOfDay tz a - startOfDay tz b) / msPerDay
  ∧ (startOfDay tz a - startOfDay tz b) mod msPerDay = 0.
Proof.
  intros Hle. rewrite differenceInDays_quot.
  assert (H : startOfDay tz a - startOfDay tz b
              = (Day (a + tz) - Day (b + tz)) * msPerDay)
    by (rewrite !startOfDay_eq; lia).
  assert (0 <= Day (a + tz) - Day (b + tz))
    by (pose proof (Day_mono (b + tz) (a + tz)); lia).
  rewrite H. split.
  - rewrite Z.quot_div_nonneg; [reflexivity | | apply msPerDay_pos].
    pose proof msPerDay_pos. nia.
  - apply Z.mod_mul. unfold msPerDay; lia.
Qed.

Lemma LocalTime_UTC t : LocalTime tz (UTC tz t) = t.
Proof. unfold LocalTime, UTC. lia. Qed.

Lemma MakeDay_carry y m d :
  12 <= m < 24 → MakeDay y m d = MakeDay (y + 1) (m - 12) d.
Proof.
  intros H. unfold MakeDay.
  assert (E1 : m / 12 = 1) by (Z.div_mod_to_equations; lia).
  assert (E2 : m mod 12 = m - 12) by (Z.div_mod_to_equations; lia).
  assert (E3 : (m - 12) / 12 = 0) by (Z.div_mod_to_equations; lia).
  assert (E4 : (m - 12) mod 12 = m - 12) by (Z.div_mod_to_equations; lia).
  by rewrite E1, E2, E3, E4, Z.add_0_r.
Qed.

(** Day 0 of the month after next is the last day of the next month. *)
Lemma MakeDay_end_of_next y m :
  0 <= m <= 11 →
  let '(y', m') := nextMonth y m in
  MakeDay y (m + 1 + 1) 0 = MakeDay y' m' (daysInMonth y' m').
Proof.
  intros Hm. unfold nextMonth.
  destruct (Z.eqb_spec m 11) as [-> | Hne].
  - rewrite MakeDay_carry by lia.
    rewrite !MakeDay_inrange by lia.
    change (11 + 1 + 1 - 12) with 1.
    change (monthStart (y + 1) 1) with 31.
    change (monthStart (y + 1) 0) with 0.
    change (daysInMonth (y + 1) 0) with 31. lia.
  - destruct (Z.eq_dec m 10) as [-> | Hne'].
    + rewrite MakeDay_carry by lia.
      rewrite !MakeDay_inrange by lia.
      rewrite DayFromYear_succ, <- monthStart_last.
      change (10 + 1 + 1 - 12) with 0. change (10 + 1) with 11.
      change (monthStart (y + 1) 0) with 0. lia.
    + rewrite !MakeDay_inrange by lia.
      rewrite (monthStart_succ y (m + 1)) by lia. lia.
Qed.

Lemma nextMonth_range y m :
  0 <= m <= 11 → 0 <= (nextMonth y m).2 <= 11.
Proof. unfold nextMonth. destruct (Z.eqb_spec m 11); simpl; lia. Qed.

(** [addMonths d 1]: the same time of day on the same day of the next
    month, or on its last day when that month is too short. *)
Lemma addMonths_one d :
  let '(y', m') := nextMonth (getFullYear tz d) (getMonth tz d) in
  addMonths tz d 1
  = UTC tz (MakeDate (MakeDay y' m' (Z.min (getDate tz d) (daysInMonth y' m')))
                     (TimeWithinDay (LocalTime tz d))).
Proof.
  pose proof (MonthFromTime_range (LocalTime tz d)) as Hm.
  pose proof (DateFromTime_range (LocalTime tz d)) as Hd.
  pose proof (MakeDay_end_of_next (getFullYear tz d) (getMonth tz d) Hm) as HE.
  pose proof (nextMonth_range (getFullYear tz d) (getMonth tz d) Hm) as Hr.
  destruct (nextMonth (getFullYear tz d) (getMonth tz d)) as [y' m'].
  simpl in Hr.
  unfold addMonths. cbv zeta.
  change (1 =? 0) with false. cbv iota.
  unfold setMonth. cbv zeta.
  fold (getFullYear tz d). rewrite HE.
  pose proof (daysInMonth_range y' m') as Hdim.
  pose proof (TimeWithinDay_range (LocalTime tz d)) as Hw.
  destruct (fields_MakeDay y' m' (daysInMonth y' m')
              (TimeWithinDay (LocalTime tz d)) Hr ltac:(lia) Hw)
    as (Ey & Em & Ed).
  set (e := UTC tz (MakeDate (MakeDay y' m' (daysInMonth y' m'))
                             (TimeWithinDay (LocalTime tz d)))).
  assert (Ey' : getFullYear tz e = y')
    by (unfold getFullYear, e; by rewrite LocalTime_UTC).
  assert (Em' : getMonth tz e = m')
    by (unfold getMonth, e; by rewrite LocalTime_UTC).
  assert (Ed' : getDate tz e = daysInMonth y' m')
    by (unfold getDate, e; by rewrite LocalTime_UTC).
  rewrite Ey', Em', Ed'. subst e.
  destruct (Z.leb_spec (daysInMonth y' m') (getDate tz d)).
  - by rewrite Z.min_r by lia.
  - rewrite Z.min_l by lia. reflexivity.
Qed.

Lemma localMidnight_fields y m d :
  0 <= m <= 11 → 1 <= d <= daysInMonth y m →
  getFullYear tz (localMidnight tz y m d) = y ∧
  getMonth tz (localMidnight tz y m d) = m ∧
  getDate tz (localMidnight tz y m d) = d ∧
  TimeWithinDay (LocalTime tz (localMidnight tz y m d)) = 0.
Proof.
  intros Hm Hd. unfold getFullYear, getMonth, getDate, localMidnight.
  rewrite LocalTime_UTC.
  assert (Ht : 0 <= 0 < msPerDay) by (unfold msPerDay; lia).
  destruct (fields_MakeDay y m d 0 Hm Hd Ht) as (? & ? & ?).
  repeat split; try assumption. by apply TimeWithinDay_MakeDate.
Qed.

(** [startOfDay] is the local midnight of the date's own civil day. *)
Lemma startOfDay_localMidnight d :
  startOfDay tz d
  = localMidnight tz (getFullYear tz d) (getMonth tz d) (getDate tz d).
Proof.
  unfold localMidnight, getFullYear, getMonth, getDate.
  rewrite MakeDay_fields, startOfDay_eq. unfold UTC, MakeDate, LocalTime. lia.
Qed.

End HostZone.

End DateFnsFacts.

(** ** Due-date calculator and status classifier *)

Import JSDateFacts DateFnsFacts.

Lemma orDate_baselineOf task :
  orDate (lastCompletedAt task) (orDate (startDate task) (task_createdAt task))
  = baselineOf task.
Proof.
  unfold orDate, baselineOf.
  destruct (lastCompletedAt task), (startDate task); reflexivity.
Qed.

(** The reference due date of a monthly task reads, in local time, as
    midnight of the clamped day of the next month. *)
Lemma computeNextDue_monthly_fields (tz : Z) (task : Task) (b : Z) :
  baselineOf task = Some b → frequency task = monthly →
  ∃ due, computeNextDue tz task = Some due ∧
    let '(y', m') := nextMonth (getFullYear tz b) (getMonth tz b) in
    getFullYear tz due = y' ∧ getMonth tz due = m' ∧
    getDate tz due = Z.min (getDate tz b) (daysInMonth y' m') ∧
    TimeWithinDay (LocalTime tz due) = 0.
Proof.
  intros Hb Hf. unfold computeNextDue. rewrite Hb, Hf. cbv zeta.
  pose proof (nextMonth_range (getFullYear tz b) (getMonth tz b)
                (MonthFromTime_range _)) as Hr.
  destruct (nextMonth (getFullYear tz b) (getMonth tz b)) as [y' m'].
  simpl in Hr. eexists; split; [reflexivity|].
  pose proof (DateFromTime_range (LocalTime tz b)).
  pose proof (daysInMonth_range y' m').
  apply localMidnight_fields; [assumption|]. unfold getDate. lia.
Qed.

(** C2. [calculateNextDueDate] takes as baseline the last completion, else
    the start date, else the creation date, and is absent when there is
    none; a weekly task is due 7 days after the local midnight of the
    baseline's day, a monthly task at local midnight of the same day of the
    next calendar month, or of that month's last day when it is shorter. *)
Theorem calculateNextDueDate_computeNextDue (tz : Z) (task : Task) :
  calculateNextDueDate tz task = computeNextDue tz task.
Proof.
  unfold calculateNextDueDate, computeNextDue.
  rewrite orDate_baselineOf.
  destruct (baselineOf task) as [b |]; [| reflexivity].
  cbv zeta. destruct (frequency task).
  - by rewrite addDays_eq, startOfDay_localMidnight.
  - pose proof (addMonths_one tz (startOfDay tz b)) as H.
    destruct (startOfDay_fields tz b) as (Ey & Em & Ed).
    rewrite Ey, Em, Ed, startOfDay_time in H.
    destruct (nextMonth (getFullYear tz b) (getMonth tz b)) as [y' m'].
    by rewrite H.
Qed.

(** The baseline's time of day has no effect on the due date. *)
Lemma calculateNextDueDate_time_of_day (tz : Z) (t1 t2 : Task) (b1 b2 : Z) :
  baselineOf t1 = Some b1 → baselineOf t2 = Some b2 →
  frequency t1 = frequency t2 →
  Day (LocalTime tz b1) = Day (LocalTime tz b2) →
  calculateNextDueDate tz t1 = calculateNextDueDate tz t2.
Proof.
  intros H1 H2 Hf HD. unfold calculateNextDueDate.
  rewrite !orDate_baselineOf, H1, H2, Hf. cbv zeta.
  by rewrite (startOfDay_same_day tz b1 b2 HD).
Qed.

Lemma differenceInDays_aligned (tz a b : Z) :
  startOfDay tz a = a → startOfDay tz b = b → b <= a →
  differenceInDays tz a b = (a - b) / msPerDay.
Proof.
  intros Ha Hb Hle.
  destruct (differenceInDays_midnights tz a b Hle) as [H _].
  by rewrite Ha, Hb in H.
Qed.

(** C1. [calculateTaskStatus] is the classifier of the specification: OK
    without a due date; Overdue when today's midnight is after the due
    day's; DueToday when they are equal; otherwise Upcoming exactly when
    the whole-day difference is at most 3 (weekly) or 5 (monthly), and OK
    in the remaining cases.  Today is the day of the clock reading
    normalized by [getHKTime]. *)
Theorem calculateTaskStatus_classify (tz clock : Z) (task : Task) :
  calculateTaskStatus tz clock task
  = classify tz (frequency task) (calculateNextDueDate tz task)
             (getHKTime tz clock).
Proof.
  unfold calculateTaskStatus, classify.
  destruct (calculateNextDueDate tz task) as [due |]; [| reflexivity].
  cbv zeta. unfold isAfter, isSameDay. rewrite !startOfDay_idemp.
  destruct (Z.ltb_spec (startOfDay tz due)
              (startOfDay tz (getHKTime tz clock))) as [Hlt | Hge];
    [reflexivity|].
  rewrite (Z.eqb_sym (startOfDay tz (getHKTime tz clock))).
  destruct (Z.eqb_spec (startOfDay tz due)
              (startOfDay tz (getHKTime tz clock))) as [Heq | Hne];
    [reflexivity|].
  rewrite differenceInDays_aligned
    by (rewrite ?startOfDay_idemp; (reflexivity || lia)).
  destruct (frequency task); simpl;
    destruct (_ <=? _); reflexivity.
Qed.

(** ** Sorting with a key comparator *)

Section KeySort.

Context {A : Type} (cmp : A → A → Z) (key : A → Z).

(** The comparator orders by the key. *)
Hypothesis cmp_key : ∀ a b, cmp a b <= 0 ↔ key a <= key b.

Lemma js_insert_Permutation x l : js_insert cmp x l ≡ₚ x :: l.
Proof.
  induction l as [| y l IH]; simpl; [done|].
  destruct (cmp x y <=? 0); [done|].
  rewrite IH. apply Permutation_swap.
Qed.

Lemma js_sort_Permutation l : js_sort cmp l ≡ₚ l.
Proof.
  induction l as [| x l IH]; simpl; [done|].
  by rewrite js_insert_Permutation, IH.
Qed.

Lemma js_insert_sorted x l :
  StronglySorted (λ a b, key a <= key b) l →
  StronglySorted (λ a b, key a <= key b) (js_insert cmp x l).
Proof.
  induction l as [| y l IH]; simpl; intros Hs.
  - repeat constructor.
  - apply StronglySorted_cons in Hs as [Hy Hl].
    pose proof (cmp_key x y) as Hxy.
    destruct (Z.leb_spec (cmp x y) 0).
    + apply StronglySorted_cons. split.
      * constructor; [lia|].
        eapply Forall_impl; [exact Hy|]. simpl. intros; lia.
      * by apply StronglySorted_cons.
    + apply StronglySorted_cons. split; [| by apply IH].
      rewrite js_insert_Permutation. constructor; [lia | assumption].
Qed.

Lemma js_sort_sorted l :
  StronglySorted (λ a b, key a <= key b) (js_sort cmp l).
Proof.
  induction l as [| x l IH]; simpl; [constructor|].
  by apply js_insert_sorted.
Qed.

(** Insertion never moves an element past another of the same key. *)
Lemma js_insert_filter k x l :
  filter (λ a, key a = k) (js_insert cmp x l)
  = filter (λ a, key a = k) (x :: l).
Proof.
  induction l as [| y l IH]; simpl; [done|].
  pose proof (cmp_key x y) as Hxy.
  destruct (Z.leb_spec (cmp x y) 0); [done|].
  rewrite (filter_cons _ y), IH, !filter_cons.
  repeat case_decide; (done || lia).
Qed.

(** Stability: the elements of each key keep their input order. *)
Lemma js_sort_stable k l :
  filter (λ a, key a = k) (js_sort cmp l) = filter (λ a, key a = k) l.
Proof.
  induction l as [| x l IH]; simpl; [done|].
  by rewrite js_insert_filter, !filter_cons, IH.
Qed.

Lemma js_sort_nil l : js_sort cmp l = [] → l = [].
Proof.
  intros H. apply Permutation_nil_r. by rewrite <- H, js_sort_Permutation.
Qed.

(** The first element of the sorted list has the least key. *)
Lemma js_sort_head x l' l :
  js_sort cmp l = x :: l' → x ∈ l ∧ ∀ y, y ∈ l → key x <= key y.
Proof.
  intros H. pose proof (js_sort_Permutation l) as HP.
  pose proof (js_sort_sorted l) as HS. rewrite H in HP, HS.
  split.
  - rewrite <- HP. left.
  - intros y Hy. rewrite <- HP in Hy.
    apply StronglySorted_cons in HS as [HF _].
    apply elem_of_cons in Hy as [-> | Hy]; [lia|].
    by apply (proj1 (Forall_forall _ _) HF).
Qed.

End KeySort.

(** Sorting commutes with a change of the elements that the comparator
    does not see. *)
Lemma js_sort_fmap {A : Type} (cmp : A → A → Z) (f : A → A) (l : list A) :
  (∀ a b, cmp (f a) (f b) = cmp a b) →
  js_sort cmp (f <$> l) = f <$> js_sort cmp l.
Proof.
  intros Hf.
  assert (Hi : ∀ x k, js_insert cmp (f x) (f <$> k) = f <$> js_insert cmp x k).
  { intros x k. induction k as [| y k IH]; [done|].
    rewrite fmap_cons. cbn [js_insert]. rewrite Hf.
    destruct (cmp x y <=? 0); [done|]. by rewrite fmap_cons, IH. }
  induction l as [| x l IH]; [done|].
  rewrite fmap_cons. cbn [js_sort]. by rewrite IH, Hi.
Qed.

(** ** The latest completion of a list of logs *)

Lemma latestCompletedAt_cons log logs :
  latestCompletedAt (log :: logs)
  = Some (match latestCompletedAt logs with
          | Some m => Z.max (completedAt log) m
          | None => completedAt log
          end).
Proof. reflexivity. Qed.

Lemma latestCompletedAt_None logs :
  latestCompletedAt logs = None ↔ logs = [].
Proof. destruct logs; [done|]. rewrite latestCompletedAt_cons. done. Qed.

(** [latestCompletedAt] is the greatest completion time of the list. *)
Lemma latestCompletedAt_Some logs m :
  latestCompletedAt logs = Some m ↔
  (∃ log, log ∈ logs ∧ completedAt log = m)
  ∧ (∀ log, log ∈ logs → completedAt log <= m).
Proof.
  revert m. induction logs as [| x logs IH]; intros m.
  - split; [done|]. intros [(log & H & _) _]. by apply elem_of_nil in H.
  - rewrite latestCompletedAt_cons.
    destruct (latestCompletedAt logs) as [m' |] eqn:E.
    + destruct (proj1 (IH m') eq_refl) as [(l0 & Hl0 & Hm0) Hmax].
      split.
      * intros [= <-]. split.
        -- destruct (Z.max_spec (completedAt x) m') as [[_ ->] | [_ ->]].
           ++ exists l0. split; [by right | done].
           ++ exists x. split; [by left | done].
        -- intros log [-> | Hin]%elem_of_cons; [lia|].
           specialize (Hmax log Hin). lia.
      * intros [(l1 & Hl1 & Hm1) Hmax1]. f_equal.
        assert (completedAt x <= m) by (apply Hmax1; by left).
        assert (m' <= m) by (rewrite <- Hm0; apply Hmax1; by right).
        apply elem_of_cons in Hl1 as [-> | Hl1]; [lia|].
        specialize (Hmax l1 Hl1). lia.
    + apply latestCompletedAt_None in E as ->. split.
      * intros [= <-]. split; [exists x; split; [by left | done]|].
        by intros log ->%list_elem_of_singleton.
      * intros [(l1 & ->%list_elem_of_singleton & <-) _]. done.
Qed.

Lemma latestCompletedAt_Permutation logs1 logs2 :
  logs1 ≡ₚ logs2 → latestCompletedAt logs1 = latestCompletedAt logs2.
Proof.
  intros HP. destruct (latestCompletedAt logs1) as [m |] eqn:E; symmetry.
  - apply latestCompletedAt_Some. apply latestCompletedAt_Some in E.
    by setoid_rewrite <- HP.
  - apply latestCompletedAt_None. apply latestCompletedAt_None in E.
    subst. symmetry. by apply Permutation_nil_l.
Qed.

(** Sorting by completion time, latest first, and taking the first log
    yields the latest completion. *)
Lemma js_sort_latest logs :
  (if (0 <? length logs)%nat
   then completedAt <$> head (js_sort byCompletedAtDesc logs)
   else None) = latestCompletedAt logs.
Proof.
  destruct logs as [| log0 logs0]; [reflexivity|].
  change (0 <? length (log0 :: logs0))%nat with true. cbv iota.
  set (logs := log0 :: logs0).
  destruct (js_sort byCompletedAtDesc logs) as [| x l'] eqn:E; symmetry.
  - by apply js_sort_nil in E.
  - apply latestCompletedAt_Some.
    destruct (js_sort_head byCompletedAtDesc (λ log, - completedAt log)
                ltac:(intros; unfold byCompletedAtDesc; lia) x l' logs E)
      as [Hin Hmin].
    split; [by exists x|]. intros log Hlog. specialize (Hmin log Hlog).
    simpl in Hmin. lia.
Qed.

Lemma latestCompletedAt_new log logs :
  (∀ old, old ∈ logs → completedAt old <= completedAt log) →
  latestCompletedAt (log :: logs) = Some (completedAt log).
Proof.
  intros H. apply latestCompletedAt_Some. split.
  - exists log. split; [by left | done].
  - intros l [-> | Hin]%elem_of_cons; [lia | by apply H].
Qed.

(** ** The object stores *)

Lemma Store_eta s : mkStore (tasks s) (completionLogs s) = s.
Proof. by destruct s. Qed.

Lemma elem_of_getCompletionLogsByTask s tid log :
  log ∈ getCompletionLogsByTask s tid ↔
  ∃ k, completionLogs s !! k = Some log ∧ taskId log = tid.
Proof.
  unfold getCompletionLogsByTask. rewrite list_elem_of_fmap. split.
  - intros ([k l] & -> & H). apply elem_of_map_to_list in H.
    apply map_lookup_filter_Some in H as [H1 H2]. by exists k.
  - intros (k & H1 & H2). exists (k, log). split; [done|].
    apply elem_of_map_to_list, map_lookup_filter_Some. by split.
Qed.

Lemma getCompletionLogsByTask_ext s s' tid :
  completionLogs s = completionLogs s' →
  getCompletionLogsByTask s tid = getCompletionLogsByTask s' tid.
Proof. unfold getCompletionLogsByTask. by intros ->. Qed.

(** After a [put], the logs of the task are the new log and the logs that
    were stored under other keys. *)
Lemma getCompletionLogsByTask_create s log :
  getCompletionLogsByTask (createCompletionLog s log) (taskId log)
  ≡ₚ log :: getCompletionLogsByTask (deleteCompletionLog s (log_id log))
                                    (taskId log).
Proof.
  unfold getCompletionLogsByTask, createCompletionLog, deleteCompletionLog.
  simpl. rewrite <- insert_delete_eq.
  rewrite map_filter_insert_True by done.
  rewrite map_to_list_insert; [done|].
  apply map_lookup_filter_None. left. apply lookup_delete_eq.
Qed.

Lemma deleteCompletionLog_fresh s k :
  completionLogs s !! k = None → deleteCompletionLog s k = s.
Proof.
  intros H. unfold deleteCompletionLog. rewrite delete_id by done.
  apply Store_eta.
Qed.

Lemma deleteCompletionLog_create s log :
  deleteCompletionLog (createCompletionLog s log) (log_id log)
  = deleteCompletionLog s (log_id log).
Proof.
  unfold deleteCompletionLog, createCompletionLog. simpl.
  by rewrite delete_insert_eq.
Qed.

Lemma elem_of_getCompletionLogsByTask_delete s k tid log :
  log ∈ getCompletionLogsByTask (deleteCompletionLog s k) tid →
  log ∈ getCompletionLogsByTask s tid.
Proof.
  rewrite !elem_of_getCompletionLogsByTask. intros (j & H & Ht).
  exists j. split; [| done]. simpl in H.
  by apply lookup_delete_Some in H as [_ H].
Qed.

Lemma updateTask_logs clock s task :
  completionLogs (updateTask clock s task).1 = completionLogs s.
Proof. reflexivity. Qed.

Lemma updateTask_task clock s task :
  (updateTask clock s task).2 = with_updatedAt task clock.
Proof. reflexivity. Qed.

Lemma updateTask_stored clock s task :
  tasks (updateTask clock s task).1 !! task_id task
  = Some (updateTask clock s task).2.
Proof. unfold updateTask. simpl. apply lookup_insert_eq. Qed.

Lemma enrichTask_lastCompletedAt tz clock s task :
  lastCompletedAt (enrichTask tz clock s task) = lastCompletedAt task.
Proof. reflexivity. Qed.

Lemma enrichTask_id tz clock s task :
  task_id (enrichTask tz clock s task) = task_id task.
Proof. reflexivity. Qed.

(** The key path invariant holds in the empty store and is kept by every
    request. *)
Lemma keyPathOk_empty ts : keyPathOk (mkStore ts ∅).
Proof. intros k log H. simpl in H. by rewrite lookup_empty in H. Qed.

Lemma keyPathOk_create s log :
  keyPathOk s → keyPathOk (createCompletionLog s log).
Proof.
  intros Hs k l. unfold createCompletionLog. cbn [completionLogs].
  rewrite lookup_insert_Some. intros [[<- <-] | [_ H]]; [done | by apply Hs].
Qed.

Lemma keyPathOk_delete s id :
  keyPathOk s → keyPathOk (deleteCompletionLog s id).
Proof.
  intros Hs k l. unfold deleteCompletionLog. cbn [completionLogs].
  rewrite lookup_delete_Some. intros [_ H]. by apply Hs.
Qed.

Lemma keyPathOk_ext s s' :
  completionLogs s' = completionLogs s → keyPathOk s → keyPathOk s'.
Proof. unfold keyPathOk. by intros ->. Qed.

(** ** The completion ledger *)

Section Ledger.

Variables (tz clock : Z).

(** What [markTaskComplete] stores and returns. *)
Lemma markTaskComplete_log rnd s task by_ byName note_ photos_ :
  (markTaskComplete tz clock rnd s task by_ byName note_ photos_).2.2
  = mkLog (newLogId clock rnd) (task_id task) (getHKTime tz clock) by_
          (Some byName) note_ photos_ (getHKTime tz clock + 5 * 60 * 1000)
          (getHKTime tz clock).
Proof. reflexivity. Qed.

Lemma markTaskComplete_logs rnd s task by_ byName note_ photos_ :
  let r := markTaskComplete tz clock rnd s task by_ byName note_ photos_ in
  completionLogs r.1 = completionLogs (createCompletionLog s r.2.2).
Proof. reflexivity. Qed.

Lemma markTaskComplete_task rnd s task by_ byName note_ photos_ :
  let r := markTaskComplete tz clock rnd s task by_ byName note_ photos_ in
  lastCompletedAt r.2.1 = Some (getHKTime tz clock)
  ∧ task_id r.2.1 = task_id task
  ∧ tasks r.1 !! task_id task = Some r.2.1.
Proof.
  cbv zeta. unfold markTaskComplete. cbv zeta.
  repeat split. simpl. apply lookup_insert_eq.
Qed.

(** What [undoTaskCompletion] stores and returns, for any clock reading. *)
Lemma undoTaskCompletion_result s task logId :
  let r := undoTaskCompletion tz clock s task logId in
  completionLogs r.1 = delete logId (completionLogs s)
  ∧ lastCompletedAt r.2
    = latestCompletedAt (getCompletionLogsByTask r.1 (task_id task))
  ∧ task_id r.2 = task_id task
  ∧ tasks r.1 !! task_id task = Some r.2.
Proof.
  cbv zeta. unfold undoTaskCompletion. cbv zeta.
  split; [reflexivity|]. split; [| split; [reflexivity|]].
  - rewrite updateTask_task. simpl. rewrite js_sort_latest.
    f_equal.
  - simpl. apply lookup_insert_eq.
Qed.

End Ledger.

Section LedgerLaws.

Variables (tz : Z).

(** [undoTaskCompletion] leaves the task consistent with the logs that
    remain, whatever the task, the log id and the clock. *)
Lemma undoTaskCompletion_consistent clock s task logId :
  consistent (undoTaskCompletion tz clock s task logId).1
             (undoTaskCompletion tz clock s task logId).2.
Proof.
  destruct (undoTaskCompletion_result tz clock s task logId)
    as (_ & Hlast & Hid & _).
  unfold consistent. by rewrite Hid.
Qed.

(** Storing a log that is not earlier than the task's other logs, and
    caching its completion time, leaves the task consistent. *)
Lemma consistent_after_put s s1 log task' :
  completionLogs s1 = completionLogs (createCompletionLog s log) →
  task_id task' = taskId log →
  lastCompletedAt task' = Some (completedAt log) →
  Forall (λ old, completedAt old <= completedAt log)
         (getCompletionLogsByTask s (taskId log)) →
  consistent s1 task'.
Proof.
  intros Hlogs Hid Hlast Hold. unfold consistent.
  rewrite Hlast, Hid, (getCompletionLogsByTask_ext _ _ _ Hlogs).
  rewrite (latestCompletedAt_Permutation _ _
             (getCompletionLogsByTask_create s log)).
  symmetry. apply latestCompletedAt_new. intros old Hin.
  apply elem_of_getCompletionLogsByTask_delete in Hin.
  by apply (proj1 (Forall_forall _ _) Hold).
Qed.

(** [markTaskComplete] leaves the task consistent when no stored log of
    the task is later than the new completion time. *)
Lemma markTaskComplete_consistent clock rnd s task by_ byName note_ photos_ :
  Forall (λ old, completedAt old <= getHKTime tz clock)
         (getCompletionLogsByTask s (task_id task)) →
  consistent (markTaskComplete tz clock rnd s task by_ byName note_ photos_).1
    (markTaskComplete tz clock rnd s task by_ byName note_ photos_).2.1.
Proof.
  intros Hold.
  exact (consistent_after_put s
           (markTaskComplete tz clock rnd s task by_ byName note_ photos_).1
           (mkLog (newLogId clock rnd) (task_id task) (getHKTime tz clock) by_
                  (Some byName) note_ photos_
                  (getHKTime tz clock + 5 * 60 * 1000) (getHKTime tz clock))
           (markTaskComplete tz clock rnd s task by_ byName note_ photos_).2.1
           eq_refl eq_refl eq_refl Hold).
Qed.

(** C3. Round trip: on a task whose [lastCompletedAt] is consistent with
    its logs, [markTaskComplete] followed by [undoTaskCompletion] with the
    id of the log just returned restores [lastCompletedAt] (and the log
    store).  The id drawn for the new log is one that the store does not
    hold yet. *)
Theorem markTaskComplete_undo_roundtrip
    (clock clock' : Z) (rnd : string) (s : Store) (task : Task)
    (by_ byName : string) (note_ : option string) (photos_ : list string) :
  completionLogs s !! newLogId clock rnd = None →
  consistent s task →
  let '(s1, (task1, log)) :=
    markTaskComplete tz clock rnd s task by_ byName note_ photos_ in
  let '(s2, task2) := undoTaskCompletion tz clock' s1 task1 (log_id log) in
  lastCompletedAt task2 = lastCompletedAt task
  ∧ completionLogs s2 = completionLogs s.
Proof.
  intros Hfresh Hcons.
  pose proof (markTaskComplete_log tz clock rnd s task by_ byName note_
                photos_) as Hlog.
  pose proof (markTaskComplete_logs tz clock rnd s task by_ byName note_
                photos_) as Hlogs.
  destruct (markTaskComplete_task tz clock rnd s task by_ byName note_ photos_)
    as (_ & Hid & _).
  destruct (markTaskComplete tz clock rnd s task by_ byName note_ photos_)
    as [s1 [task1 log]]. cbv zeta in Hlogs. cbn [fst snd] in Hlog, Hlogs, Hid.
  destruct (undoTaskCompletion_result tz clock' s1 task1 (log_id log))
    as (Hdel & Hlast & _ & _).
  destruct (undoTaskCompletion tz clock' s1 task1 (log_id log))
    as [s2 task2]. cbn [fst snd] in Hdel, Hlast.
  assert (Hback : completionLogs s2 = completionLogs s).
  { rewrite Hdel, Hlogs. unfold createCompletionLog. cbn [completionLogs].
    rewrite delete_insert_eq. apply delete_id. by rewrite Hlog. }
  split; [| exact Hback].
  rewrite Hlast, Hid, (getCompletionLogsByTask_ext _ _ _ Hback).
  symmetry. exact Hcons.
Qed.

(** C6, as the code has it.  [markTaskComplete] keeps the task consistent
    with its logs when the new completion time is not earlier than any
    stored completion of the task; [undoTaskCompletion] recomputes
    [lastCompletedAt] from the remaining logs and leaves the task
    consistent in every case. *)
Theorem ledger_keeps_consistency
    (clock : Z) (rnd : string) (s : Store) (task : Task)
    (by_ byName : string) (note_ : option string) (photos_ : list string)
    (logId : string) :
  (consistent s task →
   Forall (λ old, completedAt old <= getHKTime tz clock)
          (getCompletionLogsByTask s (task_id task)) →
   let '(s1, (task1, _)) :=
     markTaskComplete tz clock rnd s task by_ byName note_ photos_ in
   consistent s1 task1)
  ∧ (consistent s task →
     let '(s2, task2) := undoTaskCompletion tz clock s task logId in
     consistent s2 task2).
Proof.
  split.
  - intros _ Hold.
    pose proof (markTaskComplete_consistent clock rnd s task by_ byName note_
                  photos_ Hold) as H.
    by destruct (markTaskComplete tz clock rnd s task by_ byName note_ photos_)
      as [s1 [task1 log]].
  - intros _. pose proof (undoTaskCompletion_consistent clock s task logId) as H.
    by destruct (undoTaskCompletion tz clock s task logId) as [s2 task2].
Qed.

(** C7. [undoTaskCompletion] has no failing case: for every task, log id
    and clock reading, also one past the log's [undoUntil], it deletes the
    log, sets [lastCompletedAt] to the latest remaining completion, stores
    the task and returns it. *)
Theorem undoTaskCompletion_never_rejects
    (clock : Z) (s : Store) (task : Task) (logId : string) :
  let '(s', task') := undoTaskCompletion tz clock s task logId in
  completionLogs s' = delete logId (completionLogs s)
  ∧ completionLogs s' !! logId = None
  ∧ lastCompletedAt task'
    = latestCompletedAt (getCompletionLogsByTask s' (task_id task))
  ∧ tasks s' !! task_id task = Some task'.
Proof.
  destruct (undoTaskCompletion_result tz clock s task logId)
    as (Hdel & Hlast & _ & Hput).
  destruct (undoTaskCompletion tz clock s task logId) as [s' task'].
  cbn [fst snd] in *. repeat split; try assumption.
  rewrite Hdel. apply lookup_delete_eq.
Qed.

End LedgerLaws.

(** A completion recorded on [oneLogStore] and undone again. *)
Lemma markTaskComplete_undo_roundtrip_witness :
  let '(s1, (task1, log)) :=
    markTaskComplete TIMEZONE (jan1_2024 + days 17) "k3j9x2q1z" oneLogStore
                     doneOnce "helper-1" "Helper" None [] in
  let '(s2, task2) :=
    undoTaskCompletion TIMEZONE (jan1_2024 + days 17 + 60000) s1 task1
                       (log_id log) in
  lastCompletedAt task2 = lastCompletedAt doneOnce
  ∧ completionLogs s2 = completionLogs oneLogStore.
Proof.
  apply (markTaskComplete_undo_roundtrip TIMEZONE (jan1_2024 + days 17)
           (jan1_2024 + days 17 + 60000) "k3j9x2q1z" oneLogStore doneOnce
           "helper-1" "Helper" None []).
  - vm_compute. reflexivity.
  - vm_compute. reflexivity.
Defined.

(** The clock set back by a minute: the new completion is earlier than the
    stored one, and the task ends inconsistent with its logs. *)
Lemma markTaskComplete_breaks_latest :
  consistent oneLogStore doneOnce
  ∧ ¬ (let '(s1, (task1, _)) :=
         markTaskComplete TIMEZONE (jan1_2024 + days 10 - 60000) "k3j9x2q1z"
                          oneLogStore doneOnce "helper-1" "Helper" None [] in
       consistent s1 task1).
Proof.
  split.
  - vm_compute. reflexivity.
  - vm_compute. discriminate.
Qed.

Lemma ledger_keeps_consistency_witness :
  (let '(s1, (task1, _)) :=
     markTaskComplete TIMEZONE (jan1_2024 + days 17) "k3j9x2q1z" oneLogStore
                      doneOnce "helper-1" "Helper" None [] in
   consistent s1 task1)
  ∧ (let '(s2, task2) :=
       undoTaskCompletion TIMEZONE (jan1_2024 + days 17) oneLogStore doneOnce
                          "log-a" in
     consistent s2 task2).
Proof.
  destruct (ledger_keeps_consistency TIMEZONE (jan1_2024 + days 17)
              "k3j9x2q1z" oneLogStore doneOnce "helper-1" "Helper" None []
              "log-a") as [Hmark Hundo].
  split.
  - refine (Hmark _ _).
    + vm_compute. reflexivity.
    + assert (E : getCompletionLogsByTask oneLogStore (task_id doneOnce)
                  = [choreLog "log-a" "t1" (jan1_2024 + days 10)])
        by (vm_compute; reflexivity).
      rewrite E. constructor; [| constructor]. vm_compute. discriminate.
  - refine (Hundo _). vm_compute. reflexivity.
Defined.

(** An undo a full day after the completion, long past [undoUntil]. *)
Example undoTaskCompletion_late :
  undoUntil (choreLog "log-a" "t1" (jan1_2024 + days 10))
    < jan1_2024 + days 11
  ∧ let '(s', task') :=
      undoTaskCompletion TIMEZONE (jan1_2024 + days 11) oneLogStore doneOnce
                         "log-a" in
    completionLogs s' = ∅ ∧ lastCompletedAt task' = None.
Proof. split; [vm_compute; reflexivity|]. vm_compute. split; reflexivity. Qed.

(** ** Filters, sort and grouping *)

Lemma includes_elem_of (l : list string) (x : string) :
  includes l x = true ↔ x ∈ l.
Proof.
  induction l as [| y l IH]; simpl.
  - split; [done | by intros ?%elem_of_nil].
  - destruct (String.eqb_spec y x) as [-> | Hne].
    + split; [intros _; left | done].
    + rewrite IH. split; [by right|].
      by intros [<- | H]%elem_of_cons.
Qed.

(** [Array.prototype.filter] with a test that decides [P]. *)
Lemma List_filter_decide {A : Type} (f : A → bool) (P : A → Prop)
    `{!∀ x, Decision (P x)} (l : list A) :
  (∀ x, f x = true ↔ P x) → List.filter f l = filter P l.
Proof.
  intros Hf. induction l as [| x l IH]; [done|].
  simpl. rewrite filter_cons, IH.
  destruct (f x) eqn:E, (decide (P x)) as [HP | HP]; try done.
  - by apply Hf in E.
  - apply Hf in HP. congruence.
Qed.

Lemma visible_decide (userId : string) (t : Task) :
  assignedToAllHelpers t || includes (assignees t) userId = true ↔
  assignedToAllHelpers t = true ∨ userId ∈ assignees t.
Proof. by rewrite orb_true_iff, includes_elem_of. Qed.

(** C8. For an Owner [filterTasksByAssignee] returns the whole list; for a
    Helper [h] it returns, in order, exactly the tasks that are assigned to
    all helpers or list [h] among their assignees, so a task that does
    neither never appears. *)
Theorem filterTasksByAssignee_visibility (ts : list Task) (h : string) :
  filterTasksByAssignee ts h true = ts
  ∧ filterTasksByAssignee ts h false
    = filter (λ t, assignedToAllHelpers t = true ∨ h ∈ assignees t) ts
  ∧ (∀ t, t ∈ filterTasksByAssignee ts h false ↔
          t ∈ ts ∧ (assignedToAllHelpers t = true ∨ h ∈ assignees t))
  ∧ (∀ t, assignedToAllHelpers t = false → h ∉ assignees t →
          t ∉ filterTasksByAssignee ts h false).
Proof.
  assert (E : filterTasksByAssignee ts h false
              = filter (λ t, assignedToAllHelpers t = true ∨ h ∈ assignees t)
                       ts).
  { unfold filterTasksByAssignee.
    apply List_filter_decide, visible_decide. }
  split; [reflexivity|]. split; [exact E|]. rewrite E. split.
  - intros t. rewrite list_elem_of_filter. tauto.
  - intros t Hall Hnot [[Ht | Ht] _]%list_elem_of_filter; [congruence | done].
Qed.

(** A helper outside the assignees of a task that is not for all helpers:
    the owner sees the task, the helper does not. *)
Lemma filterTasksByAssignee_visibility_witness :
  let hidden := assignedTask "t3" false ["helper-2"] in
  let ts := [assignedTask "t1" true []; assignedTask "t2" false ["helper-1"];
             hidden] in
  hidden ∈ filterTasksByAssignee ts "helper-1" true
  ∧ hidden ∉ filterTasksByAssignee ts "helper-1" false.
Proof.
  intros hidden ts.
  destruct (filterTasksByAssignee_visibility ts "helper-1")
    as (Howner & _ & _ & Hhelper).
  split.
  - rewrite Howner. subst ts. do 2 right. left.
  - apply Hhelper; [reflexivity|]. subst hidden. simpl.
    by intros [=]%list_elem_of_singleton.
Defined.

Lemma byStatus_key a b : byStatus a b <= 0 ↔ statusRank a <= statusRank b.
Proof. unfold byStatus, statusRank. lia. Qed.

Lemma statusOrder_range st : 0 <= statusOrder st <= 3.
Proof. destruct st; simpl; lia. Qed.

Lemma priorityOrder_range p : 0 <= priorityOrder p <= 2.
Proof. destruct p; simpl; lia. Qed.

(** The comparator of the reminders page orders by status, then by
    priority: it is the order of the combined key. *)
Lemma byStatusThenPriority_key a b :
  byStatusThenPriority a b <= 0 ↔
  3 * statusRank a + priorityRank a <= 3 * statusRank b + priorityRank b.
Proof.
  unfold byStatusThenPriority, byStatus, statusRank, priorityRank.
  pose proof (priorityOrder_range (priority a)).
  pose proof (priorityOrder_range (priority b)).
  cbv zeta. destruct (Z.eqb_spec (statusOrder (statusOrOK a)
                                  - statusOrder (statusOrOK b)) 0);
    simpl; lia.
Qed.

Lemma StronglySorted_weaken {A : Type} (R1 R2 : relation A) (l : list A) :
  (∀ a b, R1 a b → R2 a b) → StronglySorted R1 l → StronglySorted R2 l.
Proof.
  intros HR. induction 1 as [| x l Hl IH HF]; constructor; [assumption|].
  eapply Forall_impl; [exact HF | apply HR].
Qed.

Lemma js_sort_byStatusThenPriority ts :
  StronglySorted statusThenPriority (js_sort byStatusThenPriority ts).
Proof.
  pose proof (js_sort_sorted byStatusThenPriority _
                byStatusThenPriority_key ts) as H.
  eapply StronglySorted_weaken; [| exact H]. unfold statusThenPriority.
  intros a b Hab. simpl in Hab.
  pose proof (priorityOrder_range (priority a)).
  pose proof (priorityOrder_range (priority b)).
  unfold priorityRank in *. lia.
Qed.

(** C4, as the code has it.  [sortTasksByStatus] rearranges the tasks in
    the order of the status severity rank alone, an unset status ranking as
    OK, and is stable: the tasks of each rank, whatever their priorities,
    keep their input order. *)
Theorem sortTasksByStatus_by_status_stable (ts : list Task) :
  sortTasksByStatus ts ≡ₚ ts
  ∧ StronglySorted (λ a b, statusRank a <= statusRank b)
                   (sortTasksByStatus ts)
  ∧ (∀ r, filter (λ t, statusRank t = r) (sortTasksByStatus ts)
          = filter (λ t, statusRank t = r) ts).
Proof.
  unfold sortTasksByStatus. split; [| split].
  - apply js_sort_Permutation.
  - apply (js_sort_sorted byStatus statusRank byStatus_key).
  - intros r. apply (js_sort_stable byStatus statusRank byStatus_key).
Qed.

(** Two tasks of equal status, the one of low priority first: the sort
    leaves them as they are, so the result is not in the order of status
    then priority. *)
Lemma sortTasksByStatus_ignores_priority :
  let ts := [choreTask "t1" weekly Low (Some Upcoming) None;
             choreTask "t2" weekly High (Some Upcoming) None] in
  sortTasksByStatus ts = ts
  ∧ ¬ StronglySorted statusThenPriority (sortTasksByStatus ts).
Proof.
  intros ts. split; [reflexivity|].
  change (sortTasksByStatus ts) with ts. subst ts.
  intros [HF _]%StronglySorted_cons.
  apply Forall_cons in HF as [H _].
  unfold statusThenPriority, statusRank, priorityRank in H. simpl in H. lia.
Qed.

Lemma TaskStatus_eqb_eq a b : TaskStatus_eqb a b = true ↔ a = b.
Proof. destruct a, b; simpl; split; (done || discriminate). Qed.

Lemma hasStatus_Some st t : hasStatus st t = true ↔ status t = Some st.
Proof.
  unfold hasStatus. destruct (status t) as [st' |]; [| done].
  rewrite TaskStatus_eqb_eq. split; congruence.
Qed.

(** Each bucket holds, in order, the tasks whose status is set to it. *)
Lemma bucket_groupTasksByStatus ts st :
  bucket (groupTasksByStatus ts) st = filter (λ t, status t = Some st) ts.
Proof.
  destruct st; simpl; apply List_filter_decide; intros t;
    apply hasStatus_Some.
Qed.

Lemma byStatus_defaultedOK a b :
  byStatus (defaultedOK a) (defaultedOK b) = byStatus a b.
Proof.
  unfold byStatus, defaultedOK, statusOrOK. simpl.
  by destruct (status a), (status b).
Qed.

(** C10. A task whose status is unset falls in none of the four buckets of
    [groupTasksByStatus], whose members are exactly the tasks with a status
    set; [sortTasksByStatus] keeps such a task and ranks it as OK: sorting
    commutes with writing OK into the unset statuses. *)
Theorem unset_status_grouped_nowhere_sorted_as_OK (ts : list Task) (t : Task) :
  status t = None →
  (∀ st, t ∉ bucket (groupTasksByStatus ts) st)
  ∧ (∀ st u, u ∈ bucket (groupTasksByStatus ts) st ↔
             u ∈ ts ∧ status u = Some st)
  ∧ (t ∈ ts → t ∈ sortTasksByStatus ts)
  ∧ statusRank t = statusOrder OK
  ∧ sortTasksByStatus (defaultedOK <$> ts)
    = defaultedOK <$> sortTasksByStatus ts.
Proof.
  intros Hnone. repeat split.
  - intros st. rewrite bucket_groupTasksByStatus, list_elem_of_filter.
    intros [H _]. congruence.
  - rewrite bucket_groupTasksByStatus, list_elem_of_filter in H. tauto.
  - rewrite bucket_groupTasksByStatus, list_elem_of_filter in H. tauto.
  - intros [H1 H2]. rewrite bucket_groupTasksByStatus, list_elem_of_filter.
    tauto.
  - intros Hin. unfold sortTasksByStatus. by rewrite js_sort_Permutation.
  - unfold statusRank, statusOrOK. by rewrite Hnone.
  - apply js_sort_fmap, byStatus_defaultedOK.
Qed.

(** A task that was never enriched, next to an overdue one: the sort puts
    it last, as an OK task, and the grouping puts it nowhere. *)
Lemma unset_status_grouped_nowhere_sorted_as_OK_witness :
  let raw := choreTask "t1" weekly High None None in
  let late := choreTask "t2" weekly Low (Some Overdue) None in
  sortTasksByStatus [raw; late] = [late; raw]
  ∧ (∀ st, raw ∉ bucket (groupTasksByStatus [raw; late]) st)
  ∧ grpOK (groupTasksByStatus [raw; late]) = [].
Proof.
  intros raw late.
  destruct (unset_status_grouped_nowhere_sorted_as_OK [raw; late] raw
              eq_refl) as (Hnowhere & _ & _ & _ & _).
  split; [reflexivity|]. split; [exact Hnowhere | reflexivity].
Defined.

(** ** Deleting a task *)

Lemma deleteLogs_foldl s logs :
  let final := foldl (λ st log, deleteCompletionLog st (log_id log)) s logs in
  tasks final = tasks s
  ∧ ∀ k, completionLogs final !! k
         = if decide (k ∈ log_id <$> logs) then None
           else completionLogs s !! k.
Proof.
  cbv zeta. revert s. induction logs as [| log logs IH]; intros s.
  - split; [done|]. intros k. rewrite decide_False; [done|].
    rewrite fmap_nil. by intros ?%elem_of_nil.
  - cbn [foldl]. destruct (IH (deleteCompletionLog s (log_id log))) as [Ht Hl].
    split; [by rewrite Ht|]. intros k. rewrite Hl, fmap_cons.
    change (completionLogs (deleteCompletionLog s (log_id log)))
      with (delete (log_id log) (completionLogs s)).
    destruct (decide (k ∈ log_id <$> logs)) as [Hin | Hnin].
    + by rewrite decide_True by (by right).
    + destruct (decide (k = log_id log)) as [-> | Hne].
      * rewrite decide_True by left. apply lookup_delete_eq.
      * rewrite decide_False by (by intros [? | ?]%elem_of_cons).
        by apply lookup_delete_ne.
Qed.

Lemma deleteLogs_states_last s logs :
  last (s :: deleteLogs_states s logs)
  = Some (foldl (λ st log, deleteCompletionLog st (log_id log)) s logs).
Proof.
  revert s. induction logs as [| log logs IH]; intros s; [done|].
  simpl deleteLogs_states. rewrite last_cons_cons. apply IH.
Qed.

(** C9, as the code has it.  When [deleteTask] has completed, the store
    holds neither the task nor any log of it, and the logs of other tasks
    are untouched.  The first request removes the task record and leaves
    every log in place; the logs go afterwards, one request each. *)
Theorem deleteTask_cascade (s : Store) (id : string) :
  keyPathOk s →
  tasks (deleteTask s id) !! id = None
  ∧ noLogsOf (deleteTask s id) id
  ∧ (∀ k log, completionLogs s !! k = Some log → taskId log ≠ id →
              completionLogs (deleteTask s id) !! k = Some log)
  ∧ head (deleteTask_states s id) = Some (deleteTaskRecord s id)
  ∧ completionLogs (deleteTaskRecord s id) = completionLogs s
  ∧ last (deleteTask_states s id) = Some (deleteTask s id).
Proof.
  intros Hkey. unfold deleteTask, deleteTask_states. cbv zeta.
  set (s1 := deleteTaskRecord s id).
  destruct (deleteLogs_foldl s1 (getCompletionLogsByTask s1 id)) as [Ht Hl].
  cbv zeta in Ht, Hl. repeat split.
  - rewrite Ht. apply lookup_delete_eq.
  - intros k log Hk Hid. rewrite Hl in Hk.
    destruct (decide (k ∈ log_id <$> getCompletionLogsByTask s1 id))
      as [Hin | Hnot]; [done|].
    apply Hnot, list_elem_of_fmap. exists log. split.
    + symmetry. by apply Hkey.
    + apply elem_of_getCompletionLogsByTask. by exists k.
  - intros k log Hk Hid. rewrite Hl.
    rewrite decide_False; [done|].
    intros (log' & -> & Hin)%list_elem_of_fmap.
    apply elem_of_getCompletionLogsByTask in Hin as (k' & Hk' & Hid').
    change (completionLogs s1) with (completionLogs s) in Hk'.
    pose proof (Hkey _ _ Hk') as <-. congruence.
  - apply deleteLogs_states_last.
Qed.

(** The store after the first request of [deleteTask] on a task with three
    logs: the task is gone and its three logs are still stored. *)
Lemma deleteTask_task_before_logs :
  ¬ logsFirstOrAtomic (deleteTask_states threeLogStore "t1") "t1".
Proof.
  unfold logsFirstOrAtomic, deleteTask_states. cbv zeta.
  intros [H _]%Forall_cons.
  apply (H eq_refl "log-a" (choreLog "log-a" "t1" (jan1_2024 + days 10)));
    reflexivity.
Qed.

Lemma deleteTask_cascade_witness :
  tasks (deleteTask threeLogStore "t1") !! "t1" = None
  ∧ noLogsOf (deleteTask threeLogStore "t1") "t1"
  ∧ completionLogs (deleteTask threeLogStore "t1")
    = {[ "log-z" := choreLog "log-z" "t2" (jan1_2024 + days 3) ]}.
Proof.
  assert (Hkey : keyPathOk threeLogStore).
  { intros k log. unfold threeLogStore. simpl.
    rewrite !lookup_insert_Some, lookup_singleton_Some.
    intros [[<- <-] | [_ [[<- <-] | [_ [[<- <-] | [_ [<- <-]]]]]]];
      reflexivity. }
  destruct (deleteTask_cascade threeLogStore "t1" Hkey)
    as (Htask & Hlogs & _).
  split; [exact Htask|]. split; [exact Hlogs|].
  vm_compute. reflexivity.
Defined.

(** ** The zone of the due-date calculation *)

(** A date made by [toZonedTime] reads, in the host's local fields, the
    wall clock of the target zone; truncating it in the host's zone gives
    the zoned reading of the target zone's midnight. *)
Lemma startOfDay_toZonedTime (tz raw zone : Z) :
  startOfDay tz (toZonedTime tz raw zone)
  = toZonedTime tz (startOfDay zone raw) zone.
Proof.
  rewrite !toZonedTime_eq, !startOfDay_eq.
  replace (raw + zone - tz + tz) with (raw + zone) by lia. lia.
Qed.

(** So a weekly task whose baseline is a completion time written by
    [markTaskComplete] is due, on every host, at the zoned reading of the
    Hong Kong midnight of the completion day plus seven days. *)
Lemma calculateNextDueDate_zoned_weekly (tz clock : Z) (task : Task) :
  lastCompletedAt task = Some (getHKTime tz clock) →
  frequency task = weekly →
  calculateNextDueDate tz task
  = Some (toHKTime tz (startOfDay TIMEZONE clock + 7 * msPerDay)).
Proof.
  intros Hlast Hf. unfold calculateNextDueDate. rewrite Hlast, Hf.
  cbn [orDate]. cbv zeta. rewrite addDays_eq.
  unfold getHKTime, toHKTime. rewrite startOfDay_toZonedTime.
  rewrite !toZonedTime_eq. f_equal. lia.
Qed.

(** C5.  [calculateNextDueDate] truncates the baseline at the midnight of
    the host's zone.  On a host on UTC, the task seeded at
    2024-01-01T20:00:00Z (2 January in Hong Kong) is due at
    2024-01-08T00:00:00Z, seven days after the host's midnight of 1 January;
    seven days after the Hong Kong midnight of 2 January is
    2024-01-08T16:00:00Z, and neither that instant nor its zoned reading
    (9 January, 00:00 on the host) is what the function returns.  On a host
    in Hong Kong the function does return the Hong Kong midnight. *)
Theorem calculateNextDueDate_host_midnight :
  calculateNextDueDate 0 seededTask = Some (jan1_2024 + days 7)
  ∧ computeNextDue TIMEZONE seededTask
    = Some (jan1_2024 + hours 16 + days 7)
  ∧ startOfDay 0 (toHKTime 0 (jan1_2024 + hours 20)) + days 7
    = jan1_2024 + days 8
  ∧ calculateNextDueDate TIMEZONE seededTask
    = Some (jan1_2024 + hours 16 + days 7).
Proof. repeat split; vm_compute; reflexivity. Qed.

(** ** The scenarios of the specification, on a host in Hong Kong *)

Example weekly_completed_10_days_ago :
  calculateTaskStatus TIMEZONE (jan1_2024 + days 20)
    (choreTask "t1" weekly High None (Some (jan1_2024 + days 10)))
  = Overdue.
Proof. vm_compute. reflexivity. Qed.

Example weekly_completed_5_days_ago :
  calculateTaskStatus TIMEZONE (jan1_2024 + days 15)
    (choreTask "t1" weekly High None (Some (jan1_2024 + days 10)))
  = Upcoming.
Proof. vm_compute. reflexivity. Qed.

Example monthly_due_in_6_days_and_in_5 :
  calculateTaskStatus TIMEZONE (jan1_2024 + days 35)
    (choreTask "t1" monthly High None (Some (jan1_2024 + days 10)))
  = OK
  ∧ calculateTaskStatus TIMEZONE (jan1_2024 + days 36)
      (choreTask "t1" monthly High None (Some (jan1_2024 + days 10)))
    = Upcoming.
Proof. split; vm_compute; reflexivity. Qed.

(** 31 January plus one month is 29 February in the leap year 2024. *)
Example monthly_from_31_january :
  let due := calculateNextDueDate TIMEZONE
               (choreTask "t1" monthly High None (Some (jan1_2024 + days 30))) in
  (λ d, (getFullYear TIMEZONE d, getMonth TIMEZONE d, getDate TIMEZONE d))
    <$> due
  = Some (2024, 1, 29).
Proof. vm_compute. reflexivity. Qed.

(** * Further properties *)

(** ** Sorting and filtering *)

Section KeySortFilter.

Context {A : Type} (cmp : A → A → Z) (key : A → Z).
Hypothesis cmp_key : ∀ a b, cmp a b <= 0 ↔ key a <= key b.

Lemma js_insert_least x l :
  Forall (λ y, key x <= key y) l → js_insert cmp x l = x :: l.
Proof.
  destruct l as [| y l]; [done|]. intros [Hy _]%Forall_cons. simpl.
  apply cmp_key in Hy. by destruct (Z.leb_spec (cmp x y) 0); [| lia].
Qed.

Lemma js_insert_filter_sorted (P : A → Prop) `{!∀ x, Decision (P x)} x l :
  StronglySorted (λ a b, key a <= key b) l →
  filter P (js_insert cmp x l)
  = if decide (P x) then js_insert cmp x (filter P l) else filter P l.
Proof.
  induction l as [| y l IH]; intros Hs.
  - simpl. rewrite filter_cons, filter_nil. by destruct (decide (P x)).
  - apply StronglySorted_cons in Hs as [Hy Hl]. specialize (IH Hl).
    cbn [js_insert]. pose proof (cmp_key x y) as Hxy.
    destruct (Z.leb_spec (cmp x y) 0) as [Hle | Hgt].
    + rewrite (filter_cons _ x). destruct (decide (P x)); [| done].
      symmetry. apply js_insert_least.
      apply Forall_forall. intros z [Hz Hin]%list_elem_of_filter.
      apply elem_of_cons in Hin as [-> | Hin]; [lia|].
      pose proof (proj1 (Forall_forall _ _) Hy z Hin). simpl in *. lia.
    + rewrite (filter_cons _ y), IH, (filter_cons _ y).
      destruct (decide (P x)), (decide (P y)); try done.
      cbn [js_insert]. by destruct (Z.leb_spec (cmp x y) 0); [lia|].
Qed.

(** Filtering a sorted list is sorting the filtered list. *)
Lemma js_sort_filter (P : A → Prop) `{!∀ x, Decision (P x)} l :
  filter P (js_sort cmp l) = js_sort cmp (filter P l).
Proof.
  induction l as [| x l IH]; [done|].
  cbn [js_sort]. rewrite js_insert_filter_sorted
    by apply (js_sort_sorted cmp key cmp_key).
  rewrite filter_cons, IH. by destruct (decide (P x)).
Qed.

Lemma js_sort_List_filter (f : A → bool) l :
  List.filter f (js_sort cmp l) = js_sort cmp (List.filter f l).
Proof.
  rewrite !(List_filter_decide f (λ x, f x = true)) by done.
  apply js_sort_filter.
Qed.

Lemma filter_key_above r l :
  Forall (λ y, r < key y) l → filter (λ a, key a = r) l = [].
Proof.
  induction l as [| y l IH]; [done|]. intros [Hy Hl]%Forall_cons.
  rewrite filter_cons, decide_False by lia. by apply IH.
Qed.

End KeySortFilter.

Lemma List_filter_filter_comm {A : Type} (f g : A → bool) (l : list A) :
  List.filter f (List.filter g l) = List.filter g (List.filter f l).
Proof.
  induction l as [| x l IH]; [done|]. simpl.
  destruct (f x) eqn:Ef, (g x) eqn:Eg; simpl; rewrite ?Ef, ?Eg, IH; done.
Qed.

Lemma List_filter_andb {A : Type} (f g : A → bool) (l : list A) :
  List.filter f (List.filter g l) = List.filter (λ x, g x && f x) l.
Proof.
  induction l as [| x l IH]; [done|]. simpl.
  destruct (g x) eqn:Eg; simpl; [| by rewrite IH].
  destruct (f x); by rewrite IH.
Qed.

Lemma List_filter_true {A : Type} (l : list A) :
  List.filter (λ _, true) l = l.
Proof. induction l as [| x l IH]; [done|]. simpl. by rewrite IH. Qed.

Lemma List_filter_ext_bool {A : Type} (f g : A → bool) (l : list A) :
  (∀ x, f x = g x) → List.filter f l = List.filter g l.
Proof.
  intros H. induction l as [| x l IH]; [done|]. simpl. by rewrite H, IH.
Qed.

(** ** The exported filters and the task page *)

Lemma TaskFrequency_eqb_eq a b : TaskFrequency_eqb a b = true ↔ a = b.
Proof. destruct a, b; simpl; split; (done || discriminate). Qed.

Lemma TaskPriority_eqb_eq a b : TaskPriority_eqb a b = true ↔ a = b.
Proof. destruct a, b; simpl; split; (done || discriminate). Qed.

Lemma filterTasksByFrequency_filter ts f :
  filterTasksByFrequency ts f = List.filter (matchesFrequency f) ts.
Proof. destruct f; simpl; [done|]. symmetry. apply List_filter_true. Qed.

Lemma filterTasksByPriority_filter ts p :
  filterTasksByPriority ts p = List.filter (matchesPriority p) ts.
Proof. destruct p; simpl; [done|]. symmetry. apply List_filter_true. Qed.

Lemma filterTasksByAssignee_filter ts u o :
  filterTasksByAssignee ts u o = List.filter (visibleTo u o) ts.
Proof.
  unfold filterTasksByAssignee, visibleTo. destruct o; simpl; [| done].
  symmetry. apply List_filter_true.
Qed.

Lemma elem_of_List_filter {A : Type} (f : A → bool) (l : list A) (x : A) :
  x ∈ List.filter f l ↔ x ∈ l ∧ f x = true.
Proof. rewrite !list_elem_of_In. apply filter_In. Qed.

(** X1.  The exported filters combine as a conjunction, in any order: each
    keeps the input order, ['all'] filters nothing, and a task is in the
    result exactly when it is in the input and passes every filter. *)
Theorem exported_filters_compose (ts : list Task) (u : string) (o : bool)
    (f : option TaskFrequency) (p : option TaskPriority) :
  filterTasksByPriority
    (filterTasksByFrequency (filterTasksByAssignee ts u o) f) p
  = List.filter
      (λ t, visibleTo u o t && matchesFrequency f t && matchesPriority p t) ts
  ∧ filterTasksByFrequency (filterTasksByPriority ts p) f
    = filterTasksByPriority (filterTasksByFrequency ts f) p
  ∧ filterTasksByAssignee (filterTasksByFrequency ts f) u o
    = filterTasksByFrequency (filterTasksByAssignee ts u o) f
  ∧ filterTasksByAssignee (filterTasksByPriority ts p) u o
    = filterTasksByPriority (filterTasksByAssignee ts u o) p
  ∧ filterTasksByFrequency ts None = ts
  ∧ filterTasksByPriority ts None = ts
  ∧ (∀ t, t ∈ filterTasksByPriority
                (filterTasksByFrequency (filterTasksByAssignee ts u o) f) p ↔
          t ∈ ts
          ∧ (o = true ∨ assignedToAllHelpers t = true ∨ u ∈ assignees t)
          ∧ (∀ f', f = Some f' → frequency t = f')
          ∧ (∀ p', p = Some p' → priority t = p')).
Proof.
  rewrite !filterTasksByFrequency_filter, !filterTasksByPriority_filter,
    !filterTasksByAssignee_filter.
  assert (E : List.filter (matchesPriority p)
                (List.filter (matchesFrequency f)
                   (List.filter (visibleTo u o) ts))
              = List.filter (λ t, visibleTo u o t && matchesFrequency f t
                                  && matchesPriority p t) ts).
  { rewrite !List_filter_andb. apply List_filter_ext_bool. intros t.
    by destruct (visibleTo u o t), (matchesFrequency f t). }
  split; [exact E|]. split; [apply List_filter_filter_comm|].
  split; [apply List_filter_filter_comm|].
  split; [apply List_filter_filter_comm|].
  split; [apply List_filter_true|]. split; [apply List_filter_true|].
  intros t. rewrite E, elem_of_List_filter, !andb_true_iff.
  unfold visibleTo. rewrite !orb_true_iff, includes_elem_of.
  assert (Hf : matchesFrequency f t = true ↔
               ∀ f', f = Some f' → frequency t = f').
  { destruct f as [f0 |]; simpl; [| by split].
    rewrite TaskFrequency_eqb_eq. split; [by intros -> ? [= <-] | auto]. }
  assert (Hp : matchesPriority p t = true ↔
               ∀ p', p = Some p' → priority t = p').
  { destruct p as [p0 |]; simpl; [| by split].
    rewrite TaskPriority_eqb_eq. split; [by intros -> ? [= <-] | auto]. }
  rewrite Hf, Hp. tauto.
Qed.

(** X2.  The list of the task page is the status-sorted list of all enriched
    tasks restricted to the tasks that pass the page's filters; sorting
    before or after filtering gives the same list.  Without an assignee
    filter it is the composition of the exported helpers, and a helper's
    assignee filter has no effect. *)
Theorem tasksPageList_filter_sort (ts : list Task) (u : string) (o : bool)
    (f : option TaskFrequency) (p : option TaskPriority) (a : option string) :
  tasksPageList ts u o f p a
  = List.filter
      (λ t, visibleTo u o t && matchesFrequency f t && matchesPriority p t
            && matchesAssignee o a t)
      (sortTasksByStatus ts)
  ∧ tasksPageList ts u o f p None
    = sortTasksByStatus
        (filterTasksByPriority
           (filterTasksByFrequency (filterTasksByAssignee ts u o) f) p)
  ∧ tasksPageList ts u false f p a = tasksPageList ts u false f p None
  ∧ StronglySorted (λ x y, statusRank x <= statusRank y)
                   (tasksPageList ts u o f p a).
Proof.
  assert (E : ∀ a', tasksPageList ts u o f p a'
              = sortTasksByStatus
                  (List.filter (matchesAssignee o a')
                     (List.filter (matchesPriority p)
                        (List.filter (matchesFrequency f)
                           (List.filter (visibleTo u o) ts))))).
  { intros a'. unfold tasksPageList. cbv zeta. f_equal.
    rewrite <- filterTasksByAssignee_filter, <- filterTasksByFrequency_filter,
      <- filterTasksByPriority_filter.
    unfold filterTasksByAssignee at 1.
    unfold filterTasksByFrequency at 1. unfold filterTasksByPriority at 1.
    unfold matchesAssignee.
    destruct a' as [a0 |], o; try done; symmetry; apply List_filter_true. }
  split; [| split; [| split]].
  - rewrite E. unfold sortTasksByStatus.
    rewrite (js_sort_List_filter byStatus statusRank byStatus_key).
    rewrite !List_filter_andb. f_equal. apply List_filter_ext_bool. intros t.
    by destruct (visibleTo u o t), (matchesFrequency f t),
      (matchesPriority p t).
  - rewrite E. simpl matchesAssignee. rewrite List_filter_true.
    by rewrite filterTasksByPriority_filter, filterTasksByFrequency_filter,
      filterTasksByAssignee_filter.
  - unfold tasksPageList. cbv zeta. by destruct a.
  - rewrite E. apply (js_sort_sorted byStatus statusRank byStatus_key).
Qed.

Lemma exported_filters_compose_witness :
  let ts := [choreTask "t1" weekly High None None;
             choreTask "t2" monthly High None None;
             choreTask "t3" weekly Low None None] in
  filterTasksByPriority
    (filterTasksByFrequency (filterTasksByAssignee ts "helper-1" false)
                            (Some weekly)) (Some High)
  = [choreTask "t1" weekly High None None]
  ∧ choreTask "t2" monthly High None None
    ∉ filterTasksByPriority
        (filterTasksByFrequency (filterTasksByAssignee ts "helper-1" false)
                                (Some weekly)) (Some High).
Proof.
  intros ts.
  destruct (exported_filters_compose ts "helper-1" false (Some weekly)
              (Some High)) as (_ & _ & _ & _ & _ & _ & Hmem).
  split; [reflexivity|].
  intros (_ & _ & Hf & _)%Hmem.
  specialize (Hf weekly eq_refl). discriminate Hf.
Defined.

(** ** Sorting and grouping agree on enriched tasks *)

Lemma statusRank_range t : 0 <= statusRank t <= 3.
Proof. apply statusOrder_range. Qed.

Lemma statusRank_Some t st :
  status t = Some st → (statusRank t = statusOrder st).
Proof. unfold statusRank, statusOrOK. by intros ->. Qed.

Lemma statusOrder_inj a b : statusOrder a = statusOrder b → a = b.
Proof. destruct a, b; simpl; (done || lia). Qed.

(** A list in the order of the status rank is the concatenation of its
    four rank classes. *)
Lemma sorted_by_rank_concat (l : list Task) :
  StronglySorted (λ a b, statusRank a <= statusRank b) l →
  l = filter (λ t, statusRank t = 0) l ++ filter (λ t, statusRank t = 1) l
      ++ filter (λ t, statusRank t = 2) l ++ filter (λ t, statusRank t = 3) l.
Proof.
  induction 1 as [| x l Hl IH HF]; [done|].
  pose proof (statusRank_range x) as Hx.
  assert (Hlow : ∀ r, r < statusRank x →
                      filter (λ t, statusRank t = r) l = []).
  { intros r Hr. apply filter_key_above.
    eapply Forall_impl; [exact HF|]. simpl. intros; lia. }
  rewrite !(filter_cons _ x).
  assert (Hc : statusRank x = 0 ∨ statusRank x = 1 ∨ statusRank x = 2
               ∨ statusRank x = 3) by lia.
  destruct Hc as [E | [E | [E | E]]]; rewrite E in *;
    repeat case_decide; try lia.
  - simpl. by rewrite <- IH.
  - rewrite (Hlow 0) by lia. rewrite (Hlow 0) in IH by lia.
    simpl in *. by rewrite <- IH.
  - rewrite (Hlow 0), (Hlow 1) by lia. rewrite (Hlow 0), (Hlow 1) in IH by lia.
    simpl in *. by rewrite <- IH.
  - rewrite (Hlow 0), (Hlow 1), (Hlow 2) by lia.
    rewrite (Hlow 0), (Hlow 1), (Hlow 2) in IH by lia.
    simpl in *. by rewrite <- IH.
Qed.

Lemma filter_rank_status (ts : list Task) (st : TaskStatus) :
  st ≠ OK →
  filter (λ t, statusRank t = statusOrder st) ts
  = bucket (groupTasksByStatus ts) st.
Proof.
  intros Hst. rewrite bucket_groupTasksByStatus. apply list_filter_iff.
  intros t. unfold statusRank, statusOrOK. split.
  - destruct (status t) as [st' |]; simpl.
    + by intros ->%statusOrder_inj.
    + intros E. destruct st; simpl in E; (done || lia).
  - by intros ->.
Qed.

Lemma enrichTask_status_Some tz clock s task :
  ∃ st, status (enrichTask tz clock s task) = Some st.
Proof. eexists. reflexivity. Qed.

(** X3.  The sorted list is the buckets of [groupTasksByStatus] one after the
    other, Overdue, DueToday, Upcoming, and then the tasks that are OK or
    have no status; for tasks that went through [enrichTask] the last part
    is the OK bucket, so the four buckets in order are the sorted list. *)
Theorem sortTasksByStatus_is_buckets (tz clock : Z) (s : Store)
    (ts : list Task) :
  let g := groupTasksByStatus ts in
  let es := enrichTask tz clock s <$> ts in
  let ge := groupTasksByStatus es in
  sortTasksByStatus ts
  = grpOverdue g ++ grpDueToday g ++ grpUpcoming g
    ++ filter (λ t, status t = Some OK ∨ status t = None) ts
  ∧ sortTasksByStatus es
    = grpOverdue ge ++ grpDueToday ge ++ grpUpcoming ge ++ grpOK ge.
Proof.
  assert (H : ∀ l, sortTasksByStatus l
              = grpOverdue (groupTasksByStatus l)
                ++ grpDueToday (groupTasksByStatus l)
                ++ grpUpcoming (groupTasksByStatus l)
                ++ filter (λ t, statusRank t = 3) l).
  { intros l. unfold sortTasksByStatus.
    rewrite (sorted_by_rank_concat (js_sort byStatus l))
      by apply (js_sort_sorted byStatus statusRank byStatus_key).
    rewrite !(js_sort_stable byStatus statusRank byStatus_key).
    pose proof (filter_rank_status l Overdue ltac:(done)) as E0.
    pose proof (filter_rank_status l DueToday ltac:(done)) as E1.
    pose proof (filter_rank_status l Upcoming ltac:(done)) as E2.
    change (statusOrder Overdue) with 0 in E0.
    change (statusOrder DueToday) with 1 in E1.
    change (statusOrder Upcoming) with 2 in E2.
    by rewrite E0, E1, E2. }
  cbv zeta. split.
  - rewrite H. do 3 f_equal. apply list_filter_iff. intros t.
    unfold statusRank, statusOrOK.
    destruct (status t) as [[] |]; simpl; split;
      (lia || (intros [? | ?]; done) || auto).
  - rewrite H. do 3 f_equal.
    change (grpOK (groupTasksByStatus (enrichTask tz clock s <$> ts)))
      with (bucket (groupTasksByStatus (enrichTask tz clock s <$> ts)) OK).
    rewrite bucket_groupTasksByStatus.
    induction ts as [| t ts IH]; [done|].
    rewrite fmap_cons, !filter_cons, IH.
    destruct (enrichTask_status_Some tz clock s t) as [st Hst].
    unfold statusRank, statusOrOK. rewrite Hst. simpl.
    destruct st; repeat case_decide; (done || simpl in *; lia).
Qed.

(** ** The reminders page *)

Lemma js_sort_same_key {A : Type} (cmp : A → A → Z) (key : A → Z) (k : Z)
    (l : list A) :
  (∀ a b, cmp a b <= 0 ↔ key a <= key b) →
  Forall (λ a, key a = k) l → js_sort cmp l = l.
Proof.
  intros Hcmp. induction l as [| x l IH]; [done|].
  intros [Hx Hl]%Forall_cons. cbn [js_sort]. rewrite IH by done.
  apply (js_insert_least cmp key Hcmp).
  eapply Forall_impl; [exact Hl|]. simpl. intros; lia.
Qed.

Lemma StronglySorted_weaken_on {A : Type} (P : A → Prop) (R1 R2 : relation A)
    (l : list A) :
  (∀ a b, P a → P b → R1 a b → R2 a b) →
  Forall P l → StronglySorted R1 l → StronglySorted R2 l.
Proof.
  intros HR HP. induction 1 as [| x l Hl IH HF]; [constructor|].
  apply Forall_cons in HP as [Hx HP]. constructor; [by apply IH|].
  apply Forall_forall. intros y Hy.
  apply HR; [done | by apply (proj1 (Forall_forall _ _) HP)
                  | by apply (proj1 (Forall_forall _ _) HF)].
Qed.

(** X4.  The reminders list holds the visible, active tasks in the order of
    status and then priority, so each section that the page cuts out of it
    ([t.status === st]) is in the order of priority; tasks that agree on
    status and priority keep the order of the store. *)
Theorem remindersPageList_sections (ts : list Task) (u : string) (o : bool) :
  let l := remindersPageList ts u o in
  let shown := List.filter (λ t, visibleTo u o t && isActive t) ts in
  l ≡ₚ shown
  ∧ StronglySorted statusThenPriority l
  ∧ (∀ st, StronglySorted (λ a b, priorityRank a <= priorityRank b)
                          (List.filter (hasStatus st) l))
  ∧ (∀ st p, filter (λ t, status t = Some st ∧ priority t = p) l
             = filter (λ t, status t = Some st ∧ priority t = p) shown).
Proof.
  assert (E : remindersPageList ts u o
              = js_sort byStatusThenPriority
                  (List.filter (λ t, visibleTo u o t && isActive t) ts)).
  { unfold remindersPageList. cbv zeta. f_equal.
    destruct o; [| rewrite List_filter_andb];
      apply List_filter_ext_bool; intros t; by unfold visibleTo. }
  cbv zeta. rewrite E.
  set (shown := List.filter (λ t, visibleTo u o t && isActive t) ts).
  split; [apply js_sort_Permutation|].
  split; [apply js_sort_byStatusThenPriority|]. split.
  - intros st.
    rewrite (js_sort_List_filter byStatusThenPriority _
               byStatusThenPriority_key).
    eapply (StronglySorted_weaken_on (λ t, status t = Some st));
      [| | apply (js_sort_sorted byStatusThenPriority _
                    byStatusThenPriority_key)].
    + intros a b Ha Hb Hab. simpl in Hab.
      rewrite (statusRank_Some a st Ha), (statusRank_Some b st Hb) in Hab.
      lia.
    + apply Forall_forall. intros t Ht.
      rewrite (js_sort_Permutation byStatusThenPriority) in Ht.
      apply elem_of_List_filter in Ht as [_ Ht]. by apply hasStatus_Some.
  - intros st p.
    rewrite (js_sort_filter byStatusThenPriority _ byStatusThenPriority_key).
    apply (js_sort_same_key _ (λ t, 3 * statusRank t + priorityRank t)
             (3 * statusOrder st + priorityOrder p)
             _ byStatusThenPriority_key).
    apply Forall_forall. intros t [[Hs Hp] _]%list_elem_of_filter.
    unfold priorityRank. by rewrite (statusRank_Some t st Hs), Hp.
Qed.

(** ** Due dates and the course of the status *)

(** The status as a comparison of two local midnights. *)
Lemma calculateTaskStatus_cases (tz clock : Z) (task : Task) :
  calculateTaskStatus tz clock task
  = match calculateNextDueDate tz task with
    | None => OK
    | Some due =>
        let today := startOfDay tz (getHKTime tz clock) in
        let dueDay := startOfDay tz due in
        if dueDay <? today then Overdue
        else if dueDay =? today then DueToday
        else if (dueDay - today) / msPerDay <=? upcomingWindow (frequency task)
             then Upcoming
        else OK
    end.
Proof.
  unfold calculateTaskStatus.
  destruct (calculateNextDueDate tz task) as [due |]; [| reflexivity].
  cbv zeta. unfold isAfter, isSameDay. rewrite !startOfDay_idemp.
  destruct (Z.ltb_spec (startOfDay tz due)
              (startOfDay tz (getHKTime tz clock))) as [Hlt | Hge];
    [reflexivity|].
  rewrite (Z.eqb_sym (startOfDay tz (getHKTime tz clock))).
  destruct (Z.eqb_spec (startOfDay tz due)
              (startOfDay tz (getHKTime tz clock))) as [Heq | Hne];
    [reflexivity|].
  rewrite differenceInDays_aligned
    by (rewrite ?startOfDay_idemp; (reflexivity || lia)).
  destruct (frequency task); simpl;
    destruct (_ <=? _); reflexivity.
Qed.

Lemma MakeDay_next_month y m x :
  0 <= m <= 11 →
  let '(y', m') := nextMonth y m in
  MakeDay y' m' x = MakeDay y m x + daysInMonth y m.
Proof.
  intros Hm. unfold nextMonth. destruct (Z.eqb_spec m 11) as [-> | Hne].
  - rewrite !MakeDay_inrange by lia.
    rewrite DayFromYear_succ, <- monthStart_last.
    change (monthStart (y + 1) 0) with 0. lia.
  - rewrite !MakeDay_inrange by lia. rewrite monthStart_succ by lia. lia.
Qed.

(** One month on is between 28 and 31 days on. *)
Lemma addMonths_one_bounds (tz d : Z) :
  28 * msPerDay <= addMonths tz d 1 - d <= 31 * msPerDay.
Proof.
  pose proof (addMonths_one tz d) as H.
  pose proof (MonthFromTime_range (LocalTime tz d)) as Hm.
  pose proof (DateFromTime_range (LocalTime tz d)) as Hd.
  fold (getFullYear tz d) (getMonth tz d) (getDate tz d) in Hm, Hd.
  pose proof (MakeDay_next_month (getFullYear tz d) (getMonth tz d)) as HN.
  pose proof (nextMonth_range (getFullYear tz d) (getMonth tz d) Hm) as Hr.
  destruct (nextMonth (getFullYear tz d) (getMonth tz d)) as [y' m'].
  rewrite H, (HN _ Hm). clear H HN.
  pose proof (daysInMonth_range y' m').
  pose proof (daysInMonth_range (getFullYear tz d) (getMonth tz d)).
  pose proof (MakeDay_fields (LocalTime tz d) (getDate tz d)) as HF.
  fold (getFullYear tz d) (getMonth tz d) (getDate tz d) in HF.
  rewrite (MakeDay_inrange _ _ _ Hm) in HF.
  rewrite (MakeDay_inrange _ _ _ Hm).
  pose proof (Day_TimeWithinDay (LocalTime tz d)) as HD.
  unfold UTC, MakeDate, LocalTime in *.
  pose proof msPerDay_pos.
  destruct (Z.min_spec (getDate tz d) (daysInMonth y' m')) as [[? ->] | [? ->]];
    nia.
Qed.

(** Whole days and one month after a local midnight are local midnights. *)
Lemma startOfDay_addDays_midnight (tz b n : Z) :
  startOfDay tz (addDays tz (startOfDay tz b) n)
  = addDays tz (startOfDay tz b) n.
Proof.
  rewrite addDays_eq, startOfDay_eq.
  replace (startOfDay tz b + n * msPerDay + tz)
    with (MakeDate (Day (b + tz) + n) 0)
    by (rewrite startOfDay_eq; unfold MakeDate; lia).
  pose proof msPerDay_pos.
  rewrite Day_MakeDate by lia. rewrite startOfDay_eq. lia.
Qed.

Lemma startOfDay_addMonths_midnight (tz b : Z) :
  startOfDay tz (addMonths tz (startOfDay tz b) 1)
  = addMonths tz (startOfDay tz b) 1.
Proof.
  pose proof (addMonths_one tz (startOfDay tz b)) as H1.
  destruct (nextMonth _ _) as [y' m']. rewrite H1.
  rewrite startOfDay_time, startOfDay_eq. unfold LocalTime, UTC.
  replace (MakeDate (MakeDay y' m'
             (getDate tz (startOfDay tz b) `min` daysInMonth y' m')) 0
           - tz + tz)
    with (MakeDate (MakeDay y' m'
             (getDate tz (startOfDay tz b) `min` daysInMonth y' m')) 0)
    by lia.
  pose proof msPerDay_pos.
  rewrite Day_MakeDate by lia. unfold MakeDate. lia.
Qed.

(** X5.  The due date is a local midnight, later than the baseline: exactly 7
    days after the midnight of the baseline's day for a weekly task, and
    between 28 and 31 days after it for a monthly one.  There is no due
    date exactly when the task has no baseline. *)
Theorem calculateNextDueDate_window (tz : Z) (task : Task) :
  (calculateNextDueDate tz task = None ↔ baselineOf task = None)
  ∧ (∀ b, baselineOf task = Some b →
       ∃ due, calculateNextDueDate tz task = Some due
         ∧ startOfDay tz due = due
         ∧ b < due
         ∧ (frequency task = weekly →
            due = startOfDay tz b + 7 * msPerDay)
         ∧ (frequency task = monthly →
            28 * msPerDay <= due - startOfDay tz b <= 31 * msPerDay)).
Proof.
  unfold calculateNextDueDate. rewrite orDate_baselineOf.
  destruct (baselineOf task) as [b0 |]; cbv zeta.
  - split; [by destruct (frequency task)|]. intros b [= <-].
    pose proof (startOfDay_le tz b0) as Hb. pose proof msPerDay_pos.
    destruct (frequency task).
    + exists (addDays tz (startOfDay tz b0) 7).
      rewrite startOfDay_addDays_midnight, addDays_eq.
      repeat split; try done. lia.
    + pose proof (addMonths_one_bounds tz (startOfDay tz b0)) as Hbd.
      exists (addMonths tz (startOfDay tz b0) 1).
      rewrite startOfDay_addMonths_midnight.
      repeat split; try done; lia.
  - split; [done|]. intros b [=].
Qed.

Lemma calculateNextDueDate_window_witness :
  ∃ due, calculateNextDueDate TIMEZONE doneOnce = Some due
    ∧ startOfDay TIMEZONE due = due
    ∧ jan1_2024 + days 10 < due
    ∧ due = startOfDay TIMEZONE (jan1_2024 + days 10) + 7 * msPerDay.
Proof.
  destruct (calculateNextDueDate_window TIMEZONE doneOnce) as [_ H].
  destruct (H (jan1_2024 + days 10) eq_refl)
    as (due & Hdue & Hmid & Hlt & Hw & _).
  exists due. repeat split; try assumption. by apply Hw.
Defined.

(** X6.  As the clock advances the status only gets more urgent: from OK to
    Upcoming, DueToday and Overdue, never back. *)
Theorem calculateTaskStatus_monotone (tz clock1 clock2 : Z) (task : Task) :
  clock1 <= clock2 →
  statusOrder (calculateTaskStatus tz clock2 task)
  <= statusOrder (calculateTaskStatus tz clock1 task).
Proof.
  intros Hle. rewrite !calculateTaskStatus_cases.
  destruct (calculateNextDueDate tz task) as [due |]; [| done].
  cbv zeta. unfold getHKTime. rewrite !toZonedTime_eq.
  set (dueDay := startOfDay tz due).
  assert (Ht : startOfDay tz (clock1 + TIMEZONE - tz)
               <= startOfDay tz (clock2 + TIMEZONE - tz)).
  { rewrite !startOfDay_eq. pose proof msPerDay_pos.
    pose proof (Day_mono (clock1 + TIMEZONE - tz + tz)
                  (clock2 + TIMEZONE - tz + tz)). nia. }
  revert Ht. generalize (startOfDay tz (clock1 + TIMEZONE - tz)) as t1.
  generalize (startOfDay tz (clock2 + TIMEZONE - tz)) as t2.
  intros t2 t1 Ht.
  assert (Hq : (dueDay - t2) / msPerDay <= (dueDay - t1) / msPerDay)
    by (apply Z.div_le_mono; [apply msPerDay_pos | lia]).
  revert Hq. generalize ((dueDay - t2) / msPerDay) as q2.
  generalize ((dueDay - t1) / msPerDay) as q1. intros q1 q2 Hq.
  generalize (upcomingWindow (frequency task)) as w. intros w.
  destruct (Z.ltb_spec dueDay t2), (Z.ltb_spec dueDay t1);
    destruct (Z.eqb_spec dueDay t2), (Z.eqb_spec dueDay t1);
    destruct (Z.leb_spec q2 w), (Z.leb_spec q1 w); simpl; lia.
Qed.

Lemma calculateTaskStatus_monotone_witness :
  statusOrder (calculateTaskStatus TIMEZONE (jan1_2024 + days 20) doneOnce)
  <= statusOrder (calculateTaskStatus TIMEZONE (jan1_2024 + days 15) doneOnce).
Proof.
  apply (calculateTaskStatus_monotone TIMEZONE (jan1_2024 + days 15)
           (jan1_2024 + days 20) doneOnce).
  vm_compute. discriminate.
Defined.

(** With a last completion, the task is due a whole number of days after
    the midnight of the completion's day: 7 for a weekly task, 28 to 31 for
    a monthly one. *)
Lemma calculateNextDueDate_lastCompleted (tz c : Z) (task : Task) :
  lastCompletedAt task = Some c →
  ∃ k, calculateNextDueDate tz task = Some (startOfDay tz c + k * msPerDay)
     ∧ (frequency task = weekly → k = 7)
     ∧ (frequency task = monthly → 28 <= k <= 31).
Proof.
  intros Hlast. unfold calculateNextDueDate. rewrite Hlast.
  cbn [orDate]. cbv zeta. destruct (frequency task).
  - exists 7. rewrite addDays_eq. by repeat split.
  - pose proof (addMonths_one_bounds tz (startOfDay tz c)) as Hb.
    pose proof (startOfDay_addMonths_midnight tz c) as Hm.
    rewrite (startOfDay_eq tz (addMonths _ _ _)) in Hm.
    pose proof (startOfDay_eq tz c) as Hn.
    exists (Day (addMonths tz (startOfDay tz c) 1 + tz) - Day (c + tz)).
    split; [f_equal; lia|]. split; [done|]. intros _.
    change msPerDay with 86400000 in *. lia.
Qed.

(** X7.  The course of a task after a completion written by [markTaskComplete],
    on every host.  The task is due [k] days after the completion's Hong
    Kong day, with [k = 7] for a weekly and [28 <= k <= 31] for a monthly
    task; with [n] the number of Hong Kong calendar days from the
    completion to the clock reading, the task is OK before day [k - 3]
    (weekly) or [k - 5] (monthly), Upcoming from then to day [k - 1],
    DueToday on day [k] and Overdue after it. *)
Theorem status_course (tz clock0 : Z) (task : Task) :
  lastCompletedAt task = Some (getHKTime tz clock0) →
  ∃ k, (frequency task = weekly → k = 7)
     ∧ (frequency task = monthly → 28 <= k <= 31)
     ∧ ∀ clock,
         let n := Day (clock + TIMEZONE) - Day (clock0 + TIMEZONE) in
         calculateTaskStatus tz clock task
         = if k <? n then Overdue
           else if n =? k then DueToday
           else if k - upcomingWindow (frequency task) <=? n then Upcoming
           else OK.
Proof.
  intros Hlast.
  destruct (calculateNextDueDate_lastCompleted tz _ task Hlast)
    as (k & Hk & Hw & Hm).
  exists k. split; [done|]. split; [done|]. intros clock. cbv zeta.
  rewrite calculateTaskStatus_cases, Hk. cbv zeta.
  unfold getHKTime. rewrite !toZonedTime_eq.
  pose proof msPerDay_pos as HD.
  assert (Hdue : startOfDay tz (startOfDay tz (clock0 + TIMEZONE - tz)
                                + k * msPerDay)
                 = (Day (clock0 + TIMEZONE) + k) * msPerDay - tz).
  { rewrite <- (addDays_eq tz), startOfDay_addDays_midnight, addDays_eq.
    rewrite startOfDay_eq.
    replace (clock0 + TIMEZONE - tz + tz) with (clock0 + TIMEZONE) by lia.
    lia. }
  assert (Htoday : startOfDay tz (clock + TIMEZONE - tz)
                   = Day (clock + TIMEZONE) * msPerDay - tz).
  { rewrite startOfDay_eq. f_equal. f_equal. f_equal. lia. }
  rewrite Hdue, Htoday.
  generalize (Day (clock + TIMEZONE)) as d.
  generalize (Day (clock0 + TIMEZONE)) as d0.
  generalize (upcomingWindow (frequency task)) as w.
  intros w d0 d.
  replace ((d0 + k) * msPerDay - tz - (d * msPerDay - tz))
    with ((k - (d - d0)) * msPerDay) by lia.
  rewrite Z.div_mul by lia.
  destruct (Z.ltb_spec k (d - d0)), (Z.eqb_spec (d - d0) k),
    (Z.leb_spec (k - w) (d - d0)),
    (Z.ltb_spec ((d0 + k) * msPerDay - tz) (d * msPerDay - tz)),
    (Z.eqb_spec ((d0 + k) * msPerDay - tz) (d * msPerDay - tz)),
    (Z.leb_spec (k - (d - d0)) w); try reflexivity; nia.
Qed.

Lemma status_course_witness :
  calculateTaskStatus 0 (jan1_2024 + days 5 + hours 20)
    (choreTask "t" weekly Medium None (Some (getHKTime 0 jan1_2024)))
  = Upcoming.
Proof.
  destruct (status_course 0 jan1_2024
              (choreTask "t" weekly Medium None (Some (getHKTime 0 jan1_2024)))
              eq_refl) as (k & Hw & _ & H).
  rewrite H, (Hw eq_refl). reflexivity.
Defined.

(** ** Enrichment and the last three completions *)

(** The due date and the status read the frequency and the three stored
    dates of a task, and nothing else. *)
Lemma calculateNextDueDate_stored (tz : Z) (t1 t2 : Task) :
  frequency t1 = frequency t2 →
  lastCompletedAt t1 = lastCompletedAt t2 →
  startDate t1 = startDate t2 →
  task_createdAt t1 = task_createdAt t2 →
  calculateNextDueDate tz t1 = calculateNextDueDate tz t2.
Proof.
  intros Hf Hl Hs Hc. unfold calculateNextDueDate.
  by rewrite Hf, Hl, Hs, Hc.
Qed.

Lemma calculateTaskStatus_stored (tz clock : Z) (t1 t2 : Task) :
  frequency t1 = frequency t2 →
  lastCompletedAt t1 = lastCompletedAt t2 →
  startDate t1 = startDate t2 →
  task_createdAt t1 = task_createdAt t2 →
  calculateTaskStatus tz clock t1 = calculateTaskStatus tz clock t2.
Proof.
  intros Hf Hl Hs Hc. unfold calculateTaskStatus.
  by rewrite (calculateNextDueDate_stored tz t1 t2 Hf Hl Hs Hc), Hf.
Qed.

(** X8.  [enrichTask] computes the derived fields from the stored fields and the
    logs only: the status it writes is the status of the task it was given
    (the due date set on the copy in between plays no part), derived fields
    left from an earlier enrichment are overwritten without being read, and
    enriching twice is enriching once. *)
Theorem enrichTask_derived_only (tz clock : Z) (s : Store) (task : Task)
    (due : option Z) (st : option TaskStatus) (last3 : option (list Z)) :
  status (enrichTask tz clock s task) = Some (calculateTaskStatus tz clock task)
  ∧ nextDueAt (enrichTask tz clock s task) = calculateNextDueDate tz task
  ∧ enrichTask tz clock s (with_derived task due st last3)
    = enrichTask tz clock s task
  ∧ enrichTask tz clock s (enrichTask tz clock s task)
    = enrichTask tz clock s task.
Proof.
  assert (Hs : ∀ t d o l,
             calculateTaskStatus tz clock (with_derived t d o l)
             = calculateTaskStatus tz clock t)
    by (intros; by apply calculateTaskStatus_stored).
  assert (Hd : ∀ t d o l,
             calculateNextDueDate tz (with_derived t d o l)
             = calculateNextDueDate tz t)
    by (intros; by apply calculateNextDueDate_stored).
  assert (Hw : ∀ t d o l,
             enrichTask tz clock s (with_derived t d o l)
             = enrichTask tz clock s t).
  { intros t d o l. unfold enrichTask. cbv zeta.
    rewrite !Hs, Hd. reflexivity. }
  split; [| split; [reflexivity | split]].
  - unfold enrichTask. cbv zeta. cbn [status with_derived]. by rewrite Hs.
  - apply Hw.
  - unfold enrichTask at 2. cbv zeta. apply Hw.
Qed.

(** X9.  The dates that [getLastThreeCompletionDates] returns are the three
    latest completion times among the task's stored logs, latest first (all
    of them when there are fewer than three): every other completion time
    of the task is no later than each of them.  The first one is the latest
    completion, and [getLastThreeCompletions] of [date.ts], reading the logs
    from the store, returns the same list. *)
Theorem getLastThreeCompletionDates_latest (s : Store) (tid : string) :
  let r := getLastThreeCompletionDates s tid in
  let all := completedAt <$> getCompletionLogsByTask s tid in
  length r = (3 `min` length all)%nat
  ∧ StronglySorted (λ x y, y <= x) r
  ∧ (∃ rest, all ≡ₚ r ++ rest ∧ ∀ x y, x ∈ r → y ∈ rest → y <= x)
  ∧ head r = latestCompletedAt (getCompletionLogsByTask s tid)
  ∧ getLastThreeCompletions tid (getCompletionLogsByTask s) = r.
Proof.
  cbv zeta. unfold getLastThreeCompletionDates, getLastThreeCompletions.
  generalize (getCompletionLogsByTask s tid) as logs. intros logs.
  assert (Hkey : ∀ a b : CompletionLog,
             byCompletedAtDesc a b <= 0 ↔ - completedAt a <= - completedAt b)
    by (intros; unfold byCompletedAtDesc; lia).
  pose proof (js_sort_Permutation byCompletedAtDesc logs) as HP.
  pose proof (js_sort_sorted byCompletedAtDesc _ Hkey logs) as HS.
  assert (HS' : StronglySorted (λ x y, y <= x)
                  (completedAt <$> js_sort byCompletedAtDesc logs)).
  { eapply StronglySorted_fmap; [| exact HS]. intros x y H. simpl in H. lia. }
  rewrite <- (take_drop 3 (js_sort byCompletedAtDesc logs)) in HS' at 1.
  rewrite fmap_app in HS'. apply StronglySorted_app in HS' as (Hx & H1 & _).
  repeat split.
  - rewrite length_fmap, length_take, length_fmap.
    by rewrite (Permutation_length HP).
  - exact H1.
  - exists (completedAt <$> drop 3 (js_sort byCompletedAtDesc logs)).
    split; [| intros x y; apply Hx].
    by rewrite <- fmap_app, take_drop, HP.
  - rewrite <- (js_sort_latest logs).
    destruct (js_sort byCompletedAtDesc logs) as [| x l'] eqn:E.
    + apply js_sort_nil in E. by rewrite E.
    + destruct logs as [| l0 logs0]; [discriminate E | reflexivity].
Qed.

Lemma getLastThreeCompletionDates_latest_witness :
  length (getLastThreeCompletionDates threeLogStore "t1") = 3%nat
  ∧ head (getLastThreeCompletionDates threeLogStore "t1")
    = Some (jan1_2024 + days 24).
Proof.
  destruct (getLastThreeCompletionDates_latest threeLogStore "t1")
    as (Hl & _ & _ & Hh & _).
  split; [rewrite Hl | rewrite Hh]; vm_compute; reflexivity.
Defined.

(** X10.  Right after [markTaskComplete] the task is OK and due a full period
    ahead: 7 days after today's midnight for a weekly task, 28 to 31 days
    after it for a monthly one.  The returned task is the stored one, the
    log is stored under its id, and its undo deadline is the one that
    [calculateUndoUntil] gives for its completion time. *)
Theorem markTaskComplete_resets_status (tz clock : Z) (rnd : string)
    (s : Store) (task : Task) (by_ byName : string) (note_ : option string)
    (photos_ : list string) :
  let r := markTaskComplete tz clock rnd s task by_ byName note_ photos_ in
  let today := startOfDay tz (getHKTime tz clock) in
  status r.2.1 = Some OK
  ∧ (∃ k, nextDueAt r.2.1 = Some (today + k * msPerDay)
        ∧ (frequency task = weekly → k = 7)
        ∧ (frequency task = monthly → 28 <= k <= 31))
  ∧ getTaskById r.1 (task_id task) = Some r.2.1
  ∧ getCompletionLogById r.1 (log_id r.2.2) = Some r.2.2
  ∧ undoUntil r.2.2 = calculateUndoUntil (completedAt r.2.2).
Proof.
  cbv zeta. unfold markTaskComplete. cbv zeta.
  set (now := getHKTime tz clock).
  set (updatedTask := with_lastCompletedAt task (Some now)).
  assert (Hdue := calculateNextDueDate_lastCompleted tz now updatedTask
                    eq_refl).
  change (frequency updatedTask) with (frequency task) in Hdue.
  destruct Hdue as (k & Hk & Hw & Hm).
  assert (Hk7 : 7 <= k)
    by (destruct (frequency task);
        [pose proof (Hw eq_refl) | pose proof (Hm eq_refl)]; lia).
  split; [| split; [| split; [| split]]].
  - unfold updateTask. cbn [fst snd status with_updatedAt]. unfold enrichTask.
    cbv zeta. cbn [status with_derived]. f_equal.
    rewrite (calculateTaskStatus_stored tz clock _ updatedTask)
      by reflexivity.
    rewrite calculateTaskStatus_cases, Hk. cbv zeta. fold now.
    pose proof msPerDay_pos.
    assert (E : startOfDay tz (startOfDay tz now + k * msPerDay)
                = startOfDay tz now + k * msPerDay)
      by (rewrite <- (addDays_eq tz); apply startOfDay_addDays_midnight).
    rewrite E.
    replace (startOfDay tz now + k * msPerDay - startOfDay tz now)
      with (k * msPerDay) by lia.
    rewrite Z.div_mul by lia.
    destruct (Z.ltb_spec (startOfDay tz now + k * msPerDay)
                (startOfDay tz now)); [nia|].
    destruct (Z.eqb_spec (startOfDay tz now + k * msPerDay)
                (startOfDay tz now)); [nia|].
    destruct (Z.leb_spec k (upcomingWindow (frequency updatedTask)));
      [| reflexivity].
    destruct (frequency updatedTask); simpl in *; lia.
  - exists k. split; [| done].
    unfold updateTask. cbn [fst snd nextDueAt with_updatedAt].
    unfold enrichTask. cbv zeta. cbn [nextDueAt with_derived]. exact Hk.
  - unfold getTaskById, updateTask. cbn [fst snd tasks].
    apply lookup_insert_eq.
  - unfold getCompletionLogById, updateTask, createCompletionLog.
    cbn [fst snd completionLogs log_id]. apply lookup_insert_eq.
  - unfold updateTask, calculateUndoUntil.
    cbn [fst snd undoUntil completedAt]. reflexivity.
Qed.

Lemma markTaskComplete_resets_status_witness :
  let r := markTaskComplete TIMEZONE (jan1_2024 + days 11) "x" oneLogStore
             doneOnce "helper-1" "Helper" None [] in
  status r.2.1 = Some OK
  ∧ nextDueAt r.2.1
    = Some (startOfDay TIMEZONE (getHKTime TIMEZONE (jan1_2024 + days 11))
            + 7 * msPerDay).
Proof.
  destruct (markTaskComplete_resets_status TIMEZONE (jan1_2024 + days 11) "x"
              oneLogStore doneOnce "helper-1" "Helper" None [])
    as (Hst & (k & Hk & Hw & _) & _).
  split; [exact Hst|]. rewrite <- (Hw eq_refl). exact Hk.
Defined.

(** ** The undo window *)

(** X11.  The seconds left and [canUndo] agree up to the last second: the count
    is never negative, it is positive only while [canUndo] holds, it is 0
    once [canUndo] fails, it starts from at most 300 and never grows as the
    clock advances; [canUndo] still holds with a count of 0 exactly during
    the last second before the deadline. *)
Theorem undo_window (clock completed : Z) :
  0 <= getUndoRemainingSeconds clock completed
  ∧ (0 < getUndoRemainingSeconds clock completed →
     canUndo clock completed = true)
  ∧ (canUndo clock completed = false →
     getUndoRemainingSeconds clock completed = 0)
  ∧ (completed <= clock → getUndoRemainingSeconds clock completed <= 300)
  ∧ (canUndo clock completed = true
     ∧ getUndoRemainingSeconds clock completed = 0
     ↔ completed + 299000 < clock < completed + 300000)
  ∧ (∀ clock', clock <= clock' →
       getUndoRemainingSeconds clock' completed
       <= getUndoRemainingSeconds clock completed).
Proof.
  unfold getUndoRemainingSeconds, canUndo, calculateUndoUntil. cbv zeta.
  change (5 * 60 * 1000) with 300000.
  destruct (Z.ltb_spec clock (completed + 300000)) as [Hlt | Hge].
  - repeat split; try done; intros; Z.div_mod_to_equations; lia.
  - rewrite Z.max_l by lia. change (0 / 1000) with 0.
    repeat split; try done; try lia;
      try (intros [? ?]; (done || lia));
      try (intros clock' Hle; rewrite Z.max_l by lia; done).
Qed.

Lemma undo_window_witness :
  canUndo (jan1_2024 + 299500) jan1_2024 = true
  ∧ getUndoRemainingSeconds (jan1_2024 + 299500) jan1_2024 = 0.
Proof.
  destruct (undo_window (jan1_2024 + 299500) jan1_2024)
    as (_ & _ & _ & _ & H & _).
  apply H. vm_compute. split; reflexivity.
Defined.

(** X12.  For the log that [markTaskComplete] writes at the instant [clock0],
    whose completion time is the zoned reading of that instant: [canUndo]
    compares it with the instant itself, so the window that it gives is 5
    minutes plus the difference between the Hong Kong offset and the
    host's.  On a host in Hong Kong it is the 5 minutes, and the count
    starts at the 300 seconds that the page counts down from. *)
Theorem canUndo_after_markTaskComplete (tz clock0 clock : Z) (rnd : string)
    (s : Store) (task : Task) (by_ byName : string) (note_ : option string)
    (photos_ : list string) :
  let log := (markTaskComplete tz clock0 rnd s task by_ byName note_
                photos_).2.2 in
  (canUndo clock (completedAt log) = true
   ↔ clock - clock0 < 5 * 60 * 1000 + (TIMEZONE - tz))
  ∧ (tz = TIMEZONE →
     getUndoRemainingSeconds clock0 (completedAt log) = 300
     ∧ (canUndo clock (completedAt log) = true
        ↔ clock < clock0 + 5 * 60 * 1000)).
Proof.
  cbv zeta. rewrite markTaskComplete_log. cbn [completedAt].
  unfold canUndo, getUndoRemainingSeconds, calculateUndoUntil, getHKTime.
  cbv zeta. rewrite toZonedTime_eq. rewrite Z.ltb_lt.
  split; [lia|]. intros ->. split; [| lia].
  replace (clock0 + TIMEZONE - TIMEZONE + 5 * 60 * 1000 - clock0)
    with 300000 by lia.
  reflexivity.
Qed.

Lemma canUndo_after_markTaskComplete_witness :
  getUndoRemainingSeconds jan1_2024
    (completedAt (markTaskComplete TIMEZONE jan1_2024 "x" oneLogStore doneOnce
                    "helper-1" "Helper" None []).2.2) = 300.
Proof.
  destruct (canUndo_after_markTaskComplete TIMEZONE jan1_2024 jan1_2024 "x"
              oneLogStore doneOnce "helper-1" "Helper" None []) as [_ H].
  exact (proj1 (H eq_refl)).
Defined.

(** X13.  Below one hundred minutes [formatCountdown] writes the five characters
    [mm:ss]: tens and units of the minutes, a colon, tens and units of the
    seconds. *)
Theorem formatCountdown_mmss (seconds : Z) :
  0 <= seconds < 6000 →
  formatCountdown seconds = mmss seconds
  ∧ String.length (formatCountdown seconds) = 5%nat.
Proof.
  intros Hs.
  assert (H : forallb (λ n, String.eqb (formatCountdown (Z.of_nat n))
                                        (mmss (Z.of_nat n)))
                      (seq 0 (Z.to_nat 6000)) = true)
    by (vm_compute; reflexivity).
  rewrite forallb_forall in H.
  specialize (H (Z.to_nat seconds)).
  rewrite Z2Nat.id in H by lia.
  assert (E : formatCountdown seconds = mmss seconds).
  { apply String.eqb_eq, H, in_seq. lia. }
  split; [exact E | by rewrite E].
Qed.

Lemma formatCountdown_mmss_witness :
  formatCountdown 300 = "05:00" ∧ formatCountdown 59 = "00:59".
Proof.
  split.
  - exact (proj1 (formatCountdown_mmss 300 ltac:(lia))).
  - exact (proj1 (formatCountdown_mmss 59 ltac:(lia))).
Defined.

(** ** The week of the meal plan *)

Lemma Day_add_days (t n : Z) : Day (t + n * msPerDay) = Day t + n.
Proof. unfold Day. apply Z.div_add. pose proof msPerDay_pos. lia. Qed.

(** [getWeekStart] goes back from the date's day by the number of days
    since Monday. *)
Lemma getWeekStart_eq (tz date : Z) :
  getWeekStart tz date
  = (Day (date + tz) - (getDay tz date + 6) mod 7) * msPerDay - tz.
Proof.
  unfold getWeekStart. cbv zeta.
  assert (Hday : 0 <= getDay tz date < 7)
    by (unfold getDay, WeekDay; apply Z.mod_pos_bound; lia).
  assert (Hk : getDate tz date - getDay tz date
               + (if getDay tz date =? 0 then -6 else 1)
               = getDate tz date + - ((getDay tz date + 6) mod 7)).
  { destruct (Z.eqb_spec (getDay tz date) 0) as [H0 | Hne];
      Z.div_mod_to_equations; lia. }
  rewrite Hk, setDate_add, startOfDay_eq.
  replace (date + - ((getDay tz date + 6) mod 7) * msPerDay + tz)
    with (date + tz + - ((getDay tz date + 6) mod 7) * msPerDay) by lia.
  rewrite Day_add_days. lia.
Qed.

Lemma Day_getWeekStart_add (tz date n : Z) :
  Day (getWeekStart tz date + n * msPerDay + tz)
  = Day (date + tz) - (getDay tz date + 6) mod 7 + n.
Proof.
  rewrite getWeekStart_eq.
  replace ((Day (date + tz) - (getDay tz date + 6) mod 7) * msPerDay - tz
           + n * msPerDay + tz)
    with (MakeDate (Day (date + tz) - (getDay tz date + 6) mod 7 + n) 0)
    by (unfold MakeDate; lia).
  apply Day_MakeDate. pose proof msPerDay_pos. lia.
Qed.

Lemma getDay_getWeekStart_add (tz date idx : Z) :
  getDay tz (addDaysToDate tz (getWeekStart tz date) idx) = (1 + idx) mod 7.
Proof.
  unfold addDaysToDate. rewrite addDays_eq.
  unfold getDay at 1. unfold WeekDay, LocalTime.
  rewrite Day_getWeekStart_add.
  unfold getDay, WeekDay, LocalTime. Z.div_mod_to_equations. lia.
Qed.

(** X14.  [getWeekStart] returns the local midnight of the Monday of the date's
    week: it is a Monday, at most six days before the date's day, and the
    seven days counted from it with [addDaysToDate] are Monday to Sunday in
    order, the date's own day among them. *)
Theorem getWeekStart_monday (tz date : Z) :
  let w := getWeekStart tz date in
  startOfDay tz w = w
  ∧ getDay tz w = 1
  ∧ w <= date < w + 7 * msPerDay
  ∧ (∀ idx, getDay tz (addDaysToDate tz w idx) = (1 + idx) mod 7)
  ∧ isSameDate tz (addDaysToDate tz w ((getDay tz date + 6) mod 7)) date
    = true.
Proof.
  cbv zeta.
  pose proof (startOfDay_le tz date) as Hle. rewrite startOfDay_eq in Hle.
  pose proof msPerDay_pos as HD.
  assert (Hk : 0 <= (getDay tz date + 6) mod 7 <= 6)
    by (Z.div_mod_to_equations; lia).
  split; [| split; [| split; [| split]]].
  - unfold getWeekStart. cbv zeta. apply startOfDay_idemp.
  - unfold getDay at 1. unfold WeekDay, LocalTime.
    pose proof (Day_getWeekStart_add tz date 0) as H.
    rewrite Z.mul_0_l, Z.add_0_r in H. rewrite H.
    unfold getDay, WeekDay, LocalTime. Z.div_mod_to_equations. lia.
  - rewrite getWeekStart_eq. nia.
  - apply getDay_getWeekStart_add.
  - unfold isSameDate, isSameDay, addDaysToDate. rewrite addDays_eq.
    apply Z.eqb_eq. rewrite !startOfDay_eq, Day_getWeekStart_add.
    f_equal. f_equal. lia.
Qed.

(** X15.  Each card of the week view shows, under the name of a day, the plan
    stored for that day: the page counts the days from [getWeekStart] and
    looks the plan up by the day of the week of the date it arrives at. *)
Theorem weekCards_labels (tz today : Z) (plan : WeeklyMealPlan) :
  weekCards tz (Some plan) (getWeekStart tz today)
  = [("monday", Some (monday plan)); ("tuesday", Some (tuesday plan));
     ("wednesday", Some (wednesday plan)); ("thursday", Some (thursday plan));
     ("friday", Some (friday plan)); ("saturday", Some (saturday plan));
     ("sunday", Some (sunday plan))].
Proof.
  unfold weekCards. cbn [imap]. unfold compose. cbv zeta.
  unfold getDayPlan. rewrite !getDay_getWeekStart_add. reflexivity.
Qed.

(** ** Relative times *)

(** X16.  [getRelativeTime] counts whole periods of 24 hours between the clock
    and the date, whatever the host's zone and the calendar days: less than
    24 hours either way is Today, 24 to 48 hours back is Yesterday, 24 to
    48 hours ahead is Tomorrow, and beyond that the number of whole
    periods is printed. *)
Theorem getRelativeTime_periods (tz clock date : Z) :
  let e := clock - date in
  (- msPerDay < e < msPerDay → getRelativeTime tz clock date = "Today")
  ∧ (msPerDay <= e < 2 * msPerDay →
     getRelativeTime tz clock date = "Yesterday")
  ∧ (- 2 * msPerDay < e <= - msPerDay →
     getRelativeTime tz clock date = "Tomorrow")
  ∧ (2 * msPerDay <= e →
     getRelativeTime tz clock date = pretty (e / msPerDay) +:+ " days ago")
  ∧ (e <= - 2 * msPerDay →
     getRelativeTime tz clock date
     = "in " +:+ pretty ((- e) / msPerDay) +:+ " days").
Proof.
  cbv zeta. unfold getRelativeTime. cbv zeta.
  rewrite differenceInDays_quot. change msPerDay with 86400000.
  generalize (clock - date) as e. intros e.
  assert (Hq : 0 <= e → e ÷ 86400000 = e / 86400000)
    by (intros; apply Z.quot_div_nonneg; lia).
  assert (Hn : e <= 0 → e ÷ 86400000 = - ((- e) / 86400000)).
  { intros. rewrite <- (Z.opp_involutive e) at 1.
    rewrite Z.quot_opp_l by lia. f_equal. apply Z.quot_div_nonneg; lia. }
  repeat split; intros H.
  - destruct (Z.le_ge_cases 0 e) as [Hp | Hp];
      [rewrite (Hq Hp) | rewrite (Hn Hp)].
    + rewrite Z.div_small by lia. reflexivity.
    + rewrite Z.div_small by lia. reflexivity.
  - rewrite Hq by lia.
    replace (e / 86400000) with 1 by (Z.div_mod_to_equations; lia).
    reflexivity.
  - rewrite Hn by lia.
    replace (- e / 86400000) with 1 by (Z.div_mod_to_equations; lia).
    reflexivity.
  - rewrite Hq by lia.
    assert (2 <= e / 86400000) by (Z.div_mod_to_equations; lia).
    destruct (Z.eqb_spec (e / 86400000) 0); [lia|].
    destruct (Z.eqb_spec (e / 86400000) 1); [lia|].
    destruct (Z.eqb_spec (e / 86400000) (-1)); [lia|].
    destruct (Z.ltb_spec 1 (e / 86400000)); [reflexivity | lia].
  - rewrite Hn by lia.
    assert (2 <= - e / 86400000) by (Z.div_mod_to_equations; lia).
    destruct (Z.eqb_spec (- (- e / 86400000)) 0); [lia|].
    destruct (Z.eqb_spec (- (- e / 86400000)) 1); [lia|].
    destruct (Z.eqb_spec (- (- e / 86400000)) (-1)); [lia|].
    destruct (Z.ltb_spec 1 (- (- e / 86400000))); [lia|].
    rewrite Z.abs_opp, Z.abs_eq by lia. reflexivity.
Qed.

Lemma getRelativeTime_periods_witness :
  getRelativeTime TIMEZONE (jan1_2024 + hours 32) (jan1_2024 + hours 15)
  = "Today".
Proof.
  destruct (getRelativeTime_periods TIMEZONE (jan1_2024 + hours 32)
              (jan1_2024 + hours 15)) as [H _].
  apply H. vm_compute. split; reflexivity.
Defined.

(** ** Deleting a log from the history page *)



(** ** The index of logs by task *)

(** X18.  A [put] of a log changes the index of logs by task in two places: the
    log joins the logs of its task, and the record that was stored under
    its id before, if any, leaves the logs of the task it belonged to.
    With a new id the logs of every other task are left as they were. *)
Theorem createCompletionLog_index (s : Store) (log : CompletionLog)
    (tid : string) :
  getCompletionLogsByTask (createCompletionLog s log) tid
  ≡ₚ (if decide (taskId log = tid) then [log] else [])
     ++ getCompletionLogsByTask (deleteCompletionLog s (log_id log)) tid
  ∧ (completionLogs s !! log_id log = None →
     getCompletionLogsByTask (deleteCompletionLog s (log_id log)) tid
     = getCompletionLogsByTask s tid)
  ∧ getCompletionLogById (createCompletionLog s log) (log_id log) = Some log.
Proof.
  split; [| split].
  - unfold getCompletionLogsByTask, createCompletionLog, deleteCompletionLog.
    cbn [completionLogs]. rewrite <- insert_delete_eq.
    destruct (decide (taskId log = tid)) as [Ht | Ht].
    + rewrite map_filter_insert_True by done.
      rewrite map_to_list_insert; [done|].
      apply map_lookup_filter_None. left. apply lookup_delete_eq.
    + rewrite map_filter_insert_False by done.
      by rewrite delete_delete_eq.
  - intros Hfresh. unfold getCompletionLogsByTask, deleteCompletionLog.
    cbn [completionLogs]. by rewrite delete_id.
  - unfold getCompletionLogById, createCompletionLog. cbn [completionLogs].
    apply lookup_insert_eq.
Qed.

Lemma createCompletionLog_index_witness :
  getCompletionLogsByTask
    (deleteCompletionLog oneLogStore "log-b") "t1"
  = getCompletionLogsByTask oneLogStore "t1".
Proof.
  destruct (createCompletionLog_index oneLogStore
              (choreLog "log-b" "t1" (jan1_2024 + days 17)) "t1")
    as (_ & H & _).
  apply H. reflexivity.
Defined.

(** ** Overrides of the meal plan *)

Lemma MealType_eqb_eq (a b : MealType) : MealType_eqb a b = true ↔ a = b.
Proof. destruct a, b; simpl; split; (done || discriminate). Qed.

Lemma elem_of_getDailyMealOverridesByDate tz m date o :
  o ∈ getDailyMealOverridesByDate tz m date
  ↔ (∃ k, m !! k = Some o)
    ∧ startOfDay tz (override_date o) = startOfDay tz date.
Proof.
  unfold getDailyMealOverridesByDate. cbv zeta.
  rewrite elem_of_List_filter, Z.eqb_eq, list_elem_of_fmap.
  split.
  - intros [([k o'] & -> & H%elem_of_map_to_list) Hd]. split; [| exact Hd].
    by exists k.
  - intros [[k H] Hd]. split; [| exact Hd].
    exists (k, o). split; [done|]. by apply elem_of_map_to_list.
Qed.

(** The delete requests of [clearDailyMealOverrideByDateAndType], one
    after the other. *)
Lemma clear_foldl (p : DailyMealOverride → bool)
    (m : gmap string DailyMealOverride) (l : list DailyMealOverride)
    (k : string) :
  foldl (λ st o, if p o then delete (override_id o) st else st) m l !! k
  = if decide (k ∈ override_id <$> List.filter p l) then None else m !! k.
Proof.
  revert m. induction l as [| o l IH]; intros m.
  - cbn [foldl List.filter]. rewrite decide_False; [done|].
    rewrite fmap_nil. by intros ?%elem_of_nil.
  - cbn [foldl List.filter]. rewrite IH. destruct (p o).
    + rewrite fmap_cons.
      destruct (decide (k ∈ override_id <$> List.filter p l)) as [Hin | Hnin].
      * by rewrite decide_True by (by right).
      * destruct (decide (k = override_id o)) as [-> | Hne].
        -- rewrite decide_True by left. apply lookup_delete_eq.
        -- rewrite decide_False by (by intros [? | ?]%elem_of_cons).
           by apply lookup_delete_ne.
    + reflexivity.
Qed.

(** What is left after clearing: the overrides of other days or meals. *)
Lemma clearDailyMealOverrideByDateAndType_lookup tz m date mealType k o :
  overrideKeyPathOk m →
  clearDailyMealOverrideByDateAndType tz m date mealType !! k = Some o
  ↔ m !! k = Some o ∧ ¬ isOverrideFor tz date mealType o.
Proof.
  intros Hkey. unfold clearDailyMealOverrideByDateAndType. cbv zeta.
  rewrite clear_foldl.
  destruct (decide (k ∈ _)) as [Hin | Hnin].
  - apply list_elem_of_fmap in Hin as (o' & -> & Hin).
    apply elem_of_List_filter in Hin as [Hin Hty].
    apply elem_of_getDailyMealOverridesByDate in Hin as [[k' Hk'] Hday].
    apply MealType_eqb_eq in Hty.
    pose proof (Hkey _ _ Hk') as <-.
    split; [done|]. intros [Hk Hno]. rewrite Hk' in Hk.
    injection Hk as <-. by destruct Hno.
  - split.
    + intros Hk. split; [done|]. intros [Hday Hty]. apply Hnin.
      apply list_elem_of_fmap. exists o. split; [by rewrite (Hkey _ _ Hk)|].
      apply elem_of_List_filter. split.
      * apply elem_of_getDailyMealOverridesByDate. split; [by exists k | done].
      * by apply MealType_eqb_eq.
    + by intros [Hk _].
Qed.

(** X19.  After [handleSaveOverride] the new override is the only override of
    its day and meal in the store, so it is the one that the page finds
    with [getOverrideForMeal] among the overrides of that day; an override
    of another day or meal is in the store afterwards exactly when it was
    before, as long as it is not stored under the id taken by the new
    one. *)
Theorem handleSaveOverride_replaces (tz clock : Z)
    (m : gmap string DailyMealOverride)
    (date : Z) (mealType : MealType) (items : list string) (note_ : string)
    (userId : string) :
  overrideKeyPathOk m →
  let r := handleSaveOverride tz clock m date mealType items note_ userId in
  overrideKeyPathOk r.1
  ∧ r.1 !! override_id r.2 = Some r.2
  ∧ isOverrideFor tz date mealType r.2
  ∧ (∀ k o, r.1 !! k = Some o → isOverrideFor tz date mealType o → o = r.2)
  ∧ (∀ k o, k ≠ override_id r.2 → ¬ isOverrideFor tz date mealType o →
       (r.1 !! k = Some o ↔ m !! k = Some o))
  ∧ getOverrideForMeal tz (getDailyMealOverridesByDate tz r.1 date) date
      mealType = Some r.2.
Proof.
  intros Hkey. cbv zeta. unfold handleSaveOverride. cbv zeta. cbn [fst snd].
  set (new := mkOverride ("override-" +:+ pretty clock) date mealType items
                         (Some note_) userId (getHKTime tz clock)).
  set (m1 := clearDailyMealOverrideByDateAndType tz m date mealType).
  assert (Hnew : isOverrideFor tz date mealType new) by (by split).
  assert (Hone : ∀ k o, createDailyMealOverride m1 new !! k = Some o →
                        isOverrideFor tz date mealType o → o = new).
  { intros k o Hk Ho. unfold createDailyMealOverride in Hk.
    apply lookup_insert_Some in Hk as [[_ <-] | [_ Hk]]; [done|].
    apply (clearDailyMealOverrideByDateAndType_lookup tz m date mealType k o
             Hkey) in Hk as [_ Hno].
    by destruct Hno. }
  assert (Hin : createDailyMealOverride m1 new !! override_id new = Some new)
    by apply lookup_insert_eq.
  split; [| split; [exact Hin | split; [exact Hnew | split; [exact Hone |]]]].
  - intros k o Hk. unfold createDailyMealOverride in Hk.
    apply lookup_insert_Some in Hk as [[<- <-] | [_ Hk]]; [done|].
    apply (clearDailyMealOverrideByDateAndType_lookup tz m date mealType k o
             Hkey) in Hk as [Hk _].
    by apply Hkey.
  - split.
    + intros k o Hne Hno. unfold createDailyMealOverride.
      rewrite lookup_insert_ne by congruence. unfold m1.
      rewrite (clearDailyMealOverrideByDateAndType_lookup tz m date mealType
                 k o Hkey).
      split; [by intros [? _] | by intros ?].
    + unfold getOverrideForMeal.
      destruct (List.find _ _) as [o |] eqn:Hfind.
      * apply find_some in Hfind as [Ho Hq].
        apply list_elem_of_In, elem_of_getDailyMealOverridesByDate in Ho
          as [[k Hk] _].
        apply andb_true_iff in Hq as [Hd%Z.eqb_eq Ht%MealType_eqb_eq].
        f_equal. apply (Hone k o Hk). by split.
      * exfalso.
        assert (Ho : In new (getDailyMealOverridesByDate tz
                               (createDailyMealOverride m1 new) date)).
        { apply list_elem_of_In, elem_of_getDailyMealOverridesByDate.
          split; [by exists (override_id new) | done]. }
        pose proof (find_none _ _ Hfind new Ho) as Hq. cbv beta in Hq.
        apply andb_false_iff in Hq as [Hq | Hq].
        -- apply Z.eqb_neq in Hq. by apply Hq.
        -- cbn [override_mealType new] in Hq.
           assert (MealType_eqb mealType mealType = true)
             by (by apply MealType_eqb_eq).
           unfold new in Hq. cbn [override_mealType] in Hq. congruence.
Qed.

Lemma handleSaveOverride_replaces_witness :
  let r := handleSaveOverride TIMEZONE (jan1_2024 + hours 5) oneOverrideStore
             (jan1_2024 + hours 4) lunch ["noodles"] "" "owner-1" in
  getOverrideForMeal TIMEZONE
    (getDailyMealOverridesByDate TIMEZONE r.1 (jan1_2024 + hours 4))
    (jan1_2024 + hours 4) lunch
  = Some r.2.
Proof.
  refine (proj2 (proj2 (proj2 (proj2 (proj2
    (handleSaveOverride_replaces TIMEZONE (jan1_2024 + hours 5)
       oneOverrideStore (jan1_2024 + hours 4) lunch ["noodles"] ""
       "owner-1" _)))))).
  intros k o H. unfold oneOverrideStore in H.
  apply lookup_singleton_Some in H as [<- <-]. reflexivity.
Defined.

(** ** What a completion adds to the stores *)

(** X20.  [markTaskComplete] writes one task record and one log.  The task is
    put under its id, so the number of stored tasks stays the same when the
    task is in the store and grows by one when it is not (a task deleted in
    the meantime is stored again); the other tasks are left as they are.
    With a new log id, the stored logs are the log returned and the logs
    that were there. *)
Theorem markTaskComplete_counts (tz clock : Z) (rnd : string) (s : Store)
    (task : Task) (by_ byName : string) (note_ : option string)
    (photos_ : list string) :
  let r := markTaskComplete tz clock rnd s task by_ byName note_ photos_ in
  length (getAllTasks r.1)
  = match getTaskById s (task_id task) with
    | Some _ => length (getAllTasks s)
    | None => S (length (getAllTasks s))
    end
  ∧ (∀ id, id ≠ task_id task → getTaskById r.1 id = getTaskById s id)
  ∧ (getCompletionLogById s (newLogId clock rnd) = None →
     getAllCompletionLogs r.1 ≡ₚ r.2.2 :: getAllCompletionLogs s).
Proof.
  cbv zeta. unfold markTaskComplete. cbv zeta. unfold updateTask.
  cbn [fst snd]. unfold getAllTasks, getTaskById, getCompletionLogById,
    getAllCompletionLogs.
  cbn [tasks completionLogs createCompletionLog task_id with_updatedAt].
  rewrite enrichTask_id. cbn [task_id with_lastCompletedAt].
  split; [| split].
  - rewrite !length_fmap, !length_map_to_list, map_size_insert.
    by destruct (tasks s !! task_id task).
  - intros id Hne. by rewrite lookup_insert_ne by congruence.
  - intros Hfresh. unfold createCompletionLog. cbn [completionLogs log_id].
    rewrite map_to_list_insert by exact Hfresh. by rewrite fmap_cons.
Qed.

Lemma markTaskComplete_counts_witness :
  let r := markTaskComplete TIMEZONE (jan1_2024 + days 11) "x" oneLogStore
             doneOnce "helper-1" "Helper" None [] in
  length (getAllTasks r.1) = 1%nat
  ∧ getAllCompletionLogs r.1 ≡ₚ r.2.2 :: getAllCompletionLogs oneLogStore.
Proof.
  destruct (markTaskComplete_counts TIMEZONE (jan1_2024 + days 11) "x"
              oneLogStore doneOnce "helper-1" "Helper" None [])
    as (Hn & _ & Hl).
  split; [exact Hn | apply Hl; reflexivity].
Defined.
